(** * buildkite-accounter: fetch, normalise, report and collapse

    A shallow embedding of package [main] (the [cli] command) and of
    [internal/buildkite/buildkite.go] (the GraphQL client), followed by the
    properties of the fetch / normalise / duplicate-report pipeline.

    Go strings are byte strings: they are modelled by [string], whose
    characters are the 256 values of [ascii].  Slices are lists.  The
    [map[string]bool] of seen member ids is a [gmap string bool].  Values of
    [time.Time] are kept abstract as an integer instant. *)

From Stdlib Require Import ZArith Ascii String.
From stdpp Require Import base tactics option list strings gmap sorting.

Local Open Scope string_scope.
Local Open Scope Z_scope.

(** ** Errors *)

(** The [error] values the two files build.  [ErrOpaque] stands for an error
    handed over by a collaborator (transport, file system, JSON decoder). *)
Inductive error : Type :=
| ErrOpaque (msg : string)
| ErrWrap (context : string) (cause : error)
    (* errors.Errorf("<context>: %w", cause) *)
| ErrStatus (status : string)
    (* errors.Errorf("response returned status %s", r.Status) *)
| ErrResponse (messages : list string)
    (* a pointer to the decoded responseError *)
| ErrInvalidEmail (email : string).
    (* fmt.Errorf("%s is an invalid email address", email) *)

(** [strings.Join]. *)
Fixpoint Join (elems : list string) (sep : string) : string :=
  match elems with
  | [] => ""
  | [e] => e
  | e :: rest => e ++ sep ++ Join rest sep
  end.

(** The [Error] method of [responseError], on the messages of the envelope. *)
Definition responseError_Error (messages : list string) : string :=
  "graphql error: " ++ Join messages ", ".

(** The text of an error, [err.Error()]. *)
Fixpoint Error (e : error) : string :=
  match e with
  | ErrOpaque msg => msg
  | ErrWrap context cause => context ++ ": " ++ Error cause
  | ErrStatus status => "response returned status " ++ status
  | ErrResponse messages => responseError_Error messages
  | ErrInvalidEmail email => email ++ " is an invalid email address"
  end.

(** A Go result pair [(v, err)] with [err] checked first. *)
Definition result (A : Type) : Type := error + A.

(** ** Byte-string helpers *)

(** [strings.LastIndex(s, sep)] for a one-byte separator: the index of the
    last occurrence of [c] in [s], or [-1]. *)
Fixpoint LastIndexByte (s : string) (c : ascii) : Z :=
  match s with
  | EmptyString => -1
  | String a rest =>
      let r := LastIndexByte rest c in
      if 0 <=? r then r + 1
      else if Ascii.eqb a c then 0 else -1
  end.

(** The slice expression [s[lo:]]. *)
Definition slice_from (s : string) (lo : Z) : string :=
  substring (Z.to_nat lo) (String.length s - Z.to_nat lo) s.

(** [c] occurs in [s]. *)
Fixpoint contains_byte (s : string) (c : ascii) : bool :=
  match s with
  | EmptyString => false
  | String a rest => Ascii.eqb a c || contains_byte rest c
  end.

Definition at_sign : ascii := "@"%char.

(** [getEmailDomain]. *)
Definition getEmailDomain (email : string) : result string :=
  let at_ := LastIndexByte email at_sign in
  if 0 <=? at_ then inr (slice_from email (at_ + 1))
  else inl (ErrInvalidEmail email).

(** ** The GraphQL client ([internal/buildkite/buildkite.go]) *)

(** An instant of [time.Time]; only identity of instants matters here. *)
Definition Time : Type := Z.

(** [http.StatusOK]. *)
Definition StatusOK : Z := 200.

(** The part of an [http.Response] the client looks at.  [Body] is what
    [ioutil.ReadAll] yields on the body stream: the bytes, or a read error. *)
Record HTTPResponse : Type := mkHTTPResponse {
  StatusCode : Z;
  Status : string;
  Body : result string
}.

(** The request [Client.Do] builds: the client's header and the JSON object
    with the query and its variables. *)
Record Request : Type := mkRequest {
  req_Header : list (string * string);
  req_Query : string;
  req_Variables : list (string * string)
}.

Record Client : Type := mkClient {
  token : string;
  endpoint : string;
  header : list (string * string)
}.

Definition graphQLEndpoint : string := "https://graphql.buildkite.com/v1".

(** [NewClient]; parsing the constant endpoint does not fail. *)
Definition NewClient (token : string) : result Client :=
  inr {| token := token;
         endpoint := graphQLEndpoint;
         header := [("Content-Type", "application/json");
                    ("Authorization", "Bearer " ++ token)] |}.

Record pageInfo : Type := mkPageInfo {
  HasNextPage : bool;
  EndCursor : string
}.

Record Authorization : Type := mkAuthorization {
  auth_ID : string;
  auth_Email : string;
  auth_Name : string;
  auth_CreatedAt : Time;
  auth_ExpireAt : option Time;
  auth_RevokedAt : option Time;
  auth_UserSessionDestroyedAt : option Time
}.

Record OrgMember : Type := mkOrgMember {
  om_ID : string;
  om_Name : string;
  om_Email : string;
  om_Role : string;
  om_Bot : bool;
  om_Complimentary : bool;
  om_CreatedAt : Time;
  om_Authorization : option Authorization
}.

(** The anonymous struct the page response is decoded into. *)
Record authNode : Type := mkAuthNode {
  an_ID : string;
  an_IdentityName : string;
  an_IdentityEmail : string;
  an_CreatedAt : Time;
  an_ExpiredAt : option Time;
  an_RevokedAt : Time;
  an_UserSessionDestroyedAt : option Time
}.

Record memberNode : Type := mkMemberNode {
  mn_CreatedAt : Time;
  mn_Role : string;
  mn_Complimentary : bool;
  mn_UserID : string;
  mn_UserName : string;
  mn_UserEmail : string;
  mn_UserBot : bool;
  mn_SsoAuthorizations : list authNode
}.

Record membersPage : Type := mkMembersPage {
  PageInfo : pageInfo;
  Edges : list memberNode
}.

(** White space as [strings.TrimSpace] sees it in ASCII text. *)
Definition is_space (a : ascii) : bool :=
  let n := nat_of_ascii a in
  (Nat.eqb n 32 || (Nat.leb 9 n && Nat.leb n 13))%bool.

Fixpoint TrimLeftSpace (s : string) : string :=
  match s with
  | EmptyString => EmptyString
  | String a rest => if is_space a then TrimLeftSpace rest else s
  end.

Fixpoint TrimRightSpace (s : string) : string :=
  match s with
  | EmptyString => EmptyString
  | String a rest =>
      let rest' := TrimRightSpace rest in
      if (is_space a && String.eqb rest' EmptyString)%bool then EmptyString
      else String a rest'
  end.

Definition TrimSpace (s : string) : string := TrimRightSpace (TrimLeftSpace s).

(** The query text of [getOrgMembersPage]. *)
Definition orgMembersQuery : string :=
"query ($orgSlug: ID!, $after: String) {
		organization(slug: $orgSlug) {
			members(first: 100, after: $after) {
			  pageInfo {
				hasNextPage
				endCursor
			  }
			  edges {
				node {
				  createdAt
				  role
				  complimentary
				  user {
					id
					email
					name
					bot
				  }
				  sso {
					authorizations(first: 1) {
					  edges {
						node {
						  id
						  identity {
							name
							email
						  }
						  createdAt
						  expiredAt
						  revokedAt
						  userSessionDestroyedAt
						  state
						}
					  }
					}
				  }
				}
			  }
			}
		  }
	  }".

Section GraphQLClient.

(** The world outside the program (the remote API) and the three
    collaborators of the client: the HTTP round trip of
    [c.httpClient.Do], [json.Unmarshal] into a [responseError] (the
    messages of its [Errors] field after the call, whose error is
    discarded), and the JSON decoder of the page struct. *)
Variable World : Type.
Variable httpDo : Request -> World -> result HTTPResponse * World.
Variable unmarshalErrors : string -> list string.
Variable decodePage : string -> result membersPage.

(** [checkResponseForErrors]: the response with its body buffered, and the
    error. *)
Definition checkResponseForErrors (r : HTTPResponse)
  : HTTPResponse * option error :=
  match Body r with
  | inl err => (r, Some (ErrWrap "failed to read body" err))
  | inr data =>
      let r := {| StatusCode := StatusCode r; Status := Status r;
                  Body := inr data |} in
      let errResp := unmarshalErrors data in
      if (0 <? length errResp)%nat then (r, Some (ErrResponse errResp))
      else if negb (StatusCode r =? StatusOK)
           then (r, Some (ErrStatus (Status r)))
           else (r, None)
  end.

(** [Client.Do]: [inl] is the return without a response (the round trip
    failed); [inr] carries the response and the verdict of
    [checkResponseForErrors].  Marshalling string variables and building
    the request for the constant endpoint do not fail; the dumps of the
    DEBUG mode only print. *)
Definition Do (c : Client) (query : string) (vars : list (string * string))
    (w : World) : (error + HTTPResponse * option error) * World :=
  let req := {| req_Header := header c; req_Query := TrimSpace query;
                req_Variables := vars |} in
  match httpDo req w with
  | (inl err, w) => (inl (ErrWrap "request failed" err), w)
  | (inr resp, w) => (inr (checkResponseForErrors resp), w)
  end.

(** [Response.DecodeInto] for the page struct. *)
Definition DecodeInto (r : HTTPResponse) : result membersPage :=
  match Body r with
  | inl err => inl (ErrWrap "error decoding response" err)
  | inr data =>
      match decodePage data with
      | inl err => inl (ErrWrap "error decoding response" err)
      | inr v => inr v
      end
  end.

(** The body of the loop over the edges in [getOrgMembersPage]. *)
Definition memberOfEdge (edge : memberNode) : OrgMember :=
  {| om_ID := mn_UserID edge;
     om_Name := mn_UserName edge;
     om_Email := mn_UserEmail edge;
     om_Role := mn_Role edge;
     om_Bot := mn_UserBot edge;
     om_Complimentary := mn_Complimentary edge;
     om_CreatedAt := mn_CreatedAt edge;
     om_Authorization :=
       match mn_SsoAuthorizations edge with
       | authEdge :: _ =>
           Some {| auth_ID := an_ID authEdge;
                   auth_Email := an_IdentityEmail authEdge;
                   auth_Name := an_IdentityName authEdge;
                   auth_CreatedAt := an_CreatedAt authEdge;
                   auth_ExpireAt := an_ExpiredAt authEdge;
                   auth_RevokedAt := Some (an_RevokedAt authEdge);
                   auth_UserSessionDestroyedAt :=
                     an_UserSessionDestroyedAt authEdge |}
       | [] => None
       end |}.

(** The cursor [getOrgMembersPage] hands back. *)
Definition nextCursor (p : pageInfo) : string :=
  if (HasNextPage p && negb (String.eqb (EndCursor p) ""))%bool
  then EndCursor p else "".

(** [Client.getOrgMembersPage]. *)
Definition getOrgMembersPage (c : Client) (orgSlug after : string)
    (w : World) : result (list OrgMember * string) * World :=
  match Do c orgMembersQuery [("orgSlug", orgSlug); ("after", after)] w with
  | (inl err, w) => (inl (ErrWrap "failed to get authorizations" err), w)
  | (inr (_, Some err), w) =>
      (inl (ErrWrap "failed to get authorizations" err), w)
  | (inr (resp, None), w) =>
      match DecodeInto resp with
      | inl err => (inl err, w)
      | inr r => (inr (memberOfEdge <$> Edges r, nextCursor (PageInfo r)), w)
      end
  end.

(** The [for] loop of [Client.GetOrgMembers].  It has no bound of its own
    (the server decides when the cursor runs out), so the model takes
    fuel: [None] means the fuel ran out before the loop broke. *)
Fixpoint GetOrgMembers_loop (fuel : nat) (c : Client) (orgSlug after : string)
    (acc : list OrgMember) (w : World)
  : option (result (list OrgMember) * World) :=
  match fuel with
  | O => None
  | S fuel =>
      match getOrgMembersPage c orgSlug after w with
      | (inl err, w) => Some (inl err, w)
      | (inr (members, nextAfter), w) =>
          let acc := (acc ++ members)%list in
          if String.eqb nextAfter "" then Some (inr acc, w)
          else GetOrgMembers_loop fuel c orgSlug nextAfter acc w
      end
  end.

(** [Client.GetOrgMembers]. *)
Definition GetOrgMembers (fuel : nat) (c : Client) (orgSlug : string)
    (w : World) : option (result (list OrgMember) * World) :=
  GetOrgMembers_loop fuel c orgSlug "" [] w.

End GraphQLClient.

(** ** The command (package [main]) *)

Record cli : Type := mkCli {
  c_Debug : bool;
  c_APIToken : string;
  c_OrgSlugs : list string;
  c_Cache : bool;
  c_CacheDir : string;
  c_Dedupe : list string;
  c_Output : string;
  c_Email : string
}.

Record Member : Type := mkMember {
  ID : string;
  Email : string;
  Domain : string;
  Name : string;
  Org : string;
  Role : string;
  LastAuth : option Time;
  Complimentary : bool
}.

(** [MemberWithDuplicates]; [mwd_Member] is the embedded [Member]. *)
Record MemberWithDuplicates : Type := mkMemberWithDuplicates {
  mwd_Member : Member;
  NameDuplicates : list Member;
  EmailDuplicates : list Member
}.

Definition set_Email (m : Member) (email : string) : Member :=
  {| ID := ID m; Email := email; Domain := Domain m; Name := Name m;
     Org := Org m; Role := Role m; LastAuth := LastAuth m;
     Complimentary := Complimentary m |}.

Definition set_LastAuth (m : Member) (t : option Time) : Member :=
  {| ID := ID m; Email := Email m; Domain := Domain m; Name := Name m;
     Org := Org m; Role := Role m; LastAuth := t;
     Complimentary := Complimentary m |}.

Definition set_Domain (m : Member) (domain : string) : Member :=
  {| ID := ID m; Email := Email m; Domain := domain; Name := Name m;
     Org := Org m; Role := Role m; LastAuth := LastAuth m;
     Complimentary := Complimentary m |}.

(** [filterMembers], [filterMembersByEmail], [filterMembersByName]. *)
Definition filterMembers (members : list Member) (f : Member -> bool)
  : list Member := List.filter f members.

Definition filterMembersByEmail (members : list Member) (email : string)
  : list Member :=
  filterMembers members (fun m => String.eqb (Email m) email).

Definition filterMembersByName (members : list Member) (name : string)
  : list Member :=
  filterMembers members (fun m => String.eqb (Name m) name).

(** The order of Go's [<] on strings: byte-wise lexicographic. *)
Definition string_le : relation string := fun a b => String.leb a b = true.

#[global] Instance string_le_dec : RelDecision string_le :=
  fun a b => decide (String.leb a b = true).

#[global] Instance string_le_total : Total string_le := String.leb_total.

(** [sort.Strings].  Equal strings cannot be told apart, so the sorted
    slice does not depend on the algorithm. *)
Definition sort_Strings (x : list string) : list string :=
  merge_sort string_le x.

(** The emails collected before sorting in [Run]. *)
Definition memberEmails (members : list Member) : list string :=
  Email <$> members.

(** One round of the loop over the sorted emails in [Run]: [None] is the
    run-time panic of [byEmail[0]] on an empty slice. *)
Definition reportEntry (members : list Member) (email : string)
  : option MemberWithDuplicates :=
  match filterMembersByEmail members email with
  | [] => None
  | member :: byEmail_tail =>
      let byName :=
        filterMembers members (fun m =>
          (String.eqb (Name m) (Name member)
           && negb (String.eqb (Email m) (Email member)))%bool) in
      Some {| mwd_Member := member;
              EmailDuplicates := byEmail_tail;
              NameDuplicates := byName |}
  end.

(** The loop over the sorted emails; [filterEmail] is [c.Email]. *)
Fixpoint reportLoop (members : list Member) (filterEmail : string)
    (emails : list string) : option (list MemberWithDuplicates) :=
  match emails with
  | [] => Some []
  | email :: emails =>
      if (negb (String.eqb filterEmail "")
          && negb (String.eqb filterEmail email))%bool
      then reportLoop members filterEmail emails
      else
        match reportEntry members email with
        | None => None
        | Some entry =>
            match reportLoop members filterEmail emails with
            | None => None
            | Some rest => Some (entry :: rest)
            end
        end
  end.

(** The duplicate report of [Run]: the emails of all members, sorted, and
    the loop over them.  The source has no name for this block; the
    design notes call it BuildReport. *)
Definition BuildReport (members : list Member) (filterEmail : string)
  : option (list MemberWithDuplicates) :=
  reportLoop members filterEmail (sort_Strings (memberEmails members)).

(** The loop over [c.Dedupe]. *)
Fixpoint dedupeFlags (dedupe : list string) (dedupeEmail dedupeName : bool)
  : bool * bool :=
  match dedupe with
  | [] => (dedupeEmail, dedupeName)
  | d :: dedupe =>
      if String.eqb d "email" then dedupeFlags dedupe true dedupeName
      else if String.eqb d "name" then dedupeFlags dedupe dedupeEmail true
      else dedupeFlags dedupe dedupeEmail dedupeName
  end.

(** [for _, rr := range dups { seenMembers[rr.ID] = true }]. *)
Fixpoint markSeen (dups : list Member) (seenMembers : gmap string bool)
  : gmap string bool :=
  match dups with
  | [] => seenMembers
  | rr :: dups => markSeen dups (<[ID rr := true]> seenMembers)
  end.

(** The loop that removes duplicates. *)
Fixpoint collapseLoop (dedupeEmail dedupeName : bool)
    (report : list MemberWithDuplicates) (seenMembers : gmap string bool)
  : list MemberWithDuplicates :=
  match report with
  | [] => []
  | r :: report =>
      match seenMembers !! ID (mwd_Member r) with
      | Some _ => collapseLoop dedupeEmail dedupeName report seenMembers
      | None =>
          let seenMembers := <[ID (mwd_Member r) := true]> seenMembers in
          let seenMembers :=
            if dedupeEmail then markSeen (EmailDuplicates r) seenMembers
            else seenMembers in
          let seenMembers :=
            if dedupeName then markSeen (NameDuplicates r) seenMembers
            else seenMembers in
          r :: collapseLoop dedupeEmail dedupeName report seenMembers
      end
  end.

(** The block of [Run] under the comment that says it removes duplicates;
    the design notes call it Collapse. *)
Definition Collapse (report : list MemberWithDuplicates)
    (dedupeEmail dedupeName : bool) : list MemberWithDuplicates :=
  if (dedupeEmail || dedupeName)%bool
  then collapseLoop dedupeEmail dedupeName report ∅
  else report.

(** What a run emits: a count or the report on standard output, or the rows
    written to the CSV file. *)
Inductive Rendered : Type :=
| RenderNothing
| RenderCount (n : nat)
| RenderJSON (report : list MemberWithDuplicates)
| RenderCSV (rows : list (list string)).

Definition csvHeader : list string :=
  ["email"; "name"; "org"; "role"; "last_sso_auth"].

Section Command.

(** The world outside the program and the collaborators of the command:
    [strings.ToLower]; [Time.Format] with the layout of the CSV column;
    the function value [getOrgMembers] of [getMembers], which is the
    client's [GetOrgMembers] or its cache-backed decoration (building the
    client and the cache directory come before the loop and return early
    on failure); [os.Create] of the CSV file. *)
Variable World : Type.
Variable ToLower : string -> string.
Variable Format : Time -> string.
Variable getOrgMembers : string -> World -> result (list OrgMember) * World.
Variable osCreate : string -> World -> option error * World.

(** The email the record is filed under: [orgMember.Email], overridden by
    the email of the authorization when there is one. *)
Definition effectiveEmail (orgMember : OrgMember) : string :=
  match om_Authorization orgMember with
  | Some a => auth_Email a
  | None => om_Email orgMember
  end.

(** The body of the inner loop of [getMembers], up to the [append]; the
    design notes call it Normalize. *)
Definition normalize (orgMember : OrgMember) (orgSlug : string)
  : result Member :=
  let m := {| ID := om_ID orgMember;
              Email := om_Email orgMember;
              Domain := "";
              Name := om_Name orgMember;
              Org := orgSlug;
              Role := ToLower (om_Role orgMember);
              LastAuth := None;
              Complimentary := om_Complimentary orgMember |} in
  let m := match om_Authorization orgMember with
           | Some a =>
               set_LastAuth (set_Email m (auth_Email a))
                            (Some (auth_CreatedAt a))
           | None => m
           end in
  match getEmailDomain (Email m) with
  | inl err => inl err
  | inr domain => inr (set_Domain m domain)
  end.

(** The inner loop of [getMembers]: [acc] is [result] so far. *)
Fixpoint normalizeAll (members : list OrgMember) (orgSlug : string)
    (acc : list Member) : result (list Member) :=
  match members with
  | [] => inr acc
  | orgMember :: members =>
      match normalize orgMember orgSlug with
      | inl err => inl err
      | inr m => normalizeAll members orgSlug (acc ++ [m])%list
      end
  end.

(** The outer loop of [getMembers] over [c.OrgSlugs]. *)
Fixpoint getMembersLoop (orgSlugs : list string) (acc : list Member)
    (w : World) : result (list Member) * World :=
  match orgSlugs with
  | [] => (inr acc, w)
  | orgSlug :: orgSlugs =>
      match getOrgMembers orgSlug w with
      | (inl err, w) => (inl err, w)
      | (inr members, w) =>
          match normalizeAll members orgSlug acc with
          | inl err => (inl err, w)
          | inr acc => getMembersLoop orgSlugs acc w
          end
      end
  end.

(** [cli.getMembers]. *)
Definition getMembers (c : cli) (w : World) : result (list Member) * World :=
  getMembersLoop (c_OrgSlugs c) [] w.

(** One CSV row: the body of the loop over [members] in the CSV branch. *)
Definition csvRow (member : Member) : list string :=
  let lastAuth := match LastAuth member with
                  | Some t => Format t
                  | None => ""
                  end in
  [Email member; Name member; Org member; Role member; lastAuth].

(** [cli.Run].  [None] is a run-time panic; [inl] the returned error;
    [inr] what was emitted.  Errors of the CSV writer are discarded by the
    source, as is the error of the JSON printer. *)
Definition Run (c : cli) (w : World) : option (result Rendered * World) :=
  match getMembers c w with
  | (inl err, w) => Some (inl err, w)
  | (inr members, w) =>
      match BuildReport members (c_Email c) with
      | None => None
      | Some report =>
          let '(dedupeEmail, dedupeName) :=
            dedupeFlags (c_Dedupe c) false false in
          let report := Collapse report dedupeEmail dedupeName in
          if String.eqb (c_Output c) "count"
          then Some (inr (RenderCount (length report)), w)
          else if String.eqb (c_Output c) "json"
          then Some (inr (RenderJSON report), w)
          else if String.eqb (c_Output c) "csv"
          then
            match osCreate "output.csv" w with
            | (Some err, w) => Some (inl err, w)
            | (None, w) =>
                Some (inr (RenderCSV (csvHeader :: (csvRow <$> members))), w)
            end
          else Some (inr RenderNothing, w)
      end
  end.

End Command.

(** ** Notions used in the statements (not functions of the source) *)

(** The raw email the inner loop stops at, if any. *)
Fixpoint firstInvalid (members : list OrgMember) : option string :=
  match members with
  | [] => None
  | orgMember :: members =>
      if contains_byte (effectiveEmail orgMember) at_sign
      then firstInvalid members
      else Some (effectiveEmail orgMember)
  end.

(** The domain of [m] is the text after the last at sign of its email. *)
Definition DomainAfterLastAt (m : Member) : Prop :=
  (exists pre, Email m = pre ++ String at_sign (Domain m)) /\
  contains_byte (Domain m) at_sign = false.

(** The raw record without its SSO authorization. *)
Definition dropAuthorization (orgMember : OrgMember) : OrgMember :=
  {| om_ID := om_ID orgMember; om_Name := om_Name orgMember;
     om_Email := om_Email orgMember; om_Role := om_Role orgMember;
     om_Bot := om_Bot orgMember;
     om_Complimentary := om_Complimentary orgMember;
     om_CreatedAt := om_CreatedAt orgMember; om_Authorization := None |}.

(** The flags [c] with other values for [--dedupe] and [--email]. *)
Definition withDedupeAndEmail (c : cli) (dedupe : list string)
    (email : string) : cli :=
  {| c_Debug := c_Debug c; c_APIToken := c_APIToken c;
     c_OrgSlugs := c_OrgSlugs c; c_Cache := c_Cache c;
     c_CacheDir := c_CacheDir c; c_Dedupe := dedupe;
     c_Output := c_Output c; c_Email := email |}.

(** The emails the loop does not skip. *)
Definition keptEmails (filterEmail : string) (emails : list string)
  : list string :=
  List.filter (fun email =>
    negb (negb (String.eqb filterEmail "")
          && negb (String.eqb filterEmail email))) emails.

(** The seen set after an entry was kept. *)
Definition seenAfter (dedupeEmail dedupeName : bool)
    (r : MemberWithDuplicates) (seenMembers : gmap string bool)
  : gmap string bool :=
  let seenMembers := <[ID (mwd_Member r) := true]> seenMembers in
  let seenMembers :=
    if dedupeEmail then markSeen (EmailDuplicates r) seenMembers
    else seenMembers in
  if dedupeName then markSeen (NameDuplicates r) seenMembers
  else seenMembers.

(** ** Fixtures: stand-ins for the collaborators, and the scenarios *)

Module Fixture.

(** [strings.ToLower] on ASCII text. *)
Definition lowerByte (a : ascii) : ascii :=
  let n := nat_of_ascii a in
  if (Nat.leb 65 n && Nat.leb n 90)%bool then ascii_of_nat (n + 32) else a.

Fixpoint ToLowerASCII (s : string) : string :=
  match s with
  | EmptyString => EmptyString
  | String a rest => String (lowerByte a) (ToLowerASCII rest)
  end.

(** A stand-in for [Time.Format]: every instant prints the same text. *)
Definition FormatStub (t : Time) : string := "2022-01-13 06:23:40".

(** A file system on which [os.Create] succeeds. *)
Definition createOk {W : Type} (name : string) (w : W) : option error * W :=
  (None, w).

Definition mk (id email domain name org : string) : Member :=
  {| ID := id; Email := email; Domain := domain; Name := name; Org := org;
     Role := "member"; LastAuth := None; Complimentary := false |}.

(** The three members of the duplicate scenario. *)
Definition m1 : Member := mk "1" "a@x.com" "x.com" "Llama" "O1".
Definition m2 : Member := mk "2" "a@x.com" "x.com" "Llama" "O2".
Definition m3 : Member := mk "3" "b@x.com" "x.com" "Llama" "O1".
Definition llamas : list Member := [m1; m2; m3].

Definition entryA : MemberWithDuplicates :=
  {| mwd_Member := m1; EmailDuplicates := [m2]; NameDuplicates := [m3] |}.
Definition entryB : MemberWithDuplicates :=
  {| mwd_Member := m3; EmailDuplicates := []; NameDuplicates := [m1; m2] |}.

(** Raw records: an account with an SSO authorization under another name
    and email, an account without one, and an account whose email has no
    at sign. *)
Definition ssoAuth : Authorization :=
  {| auth_ID := "auth-1"; auth_Email := "llama@sso.example";
     auth_Name := "L. Lama (SSO)"; auth_CreatedAt := 1642054620;
     auth_ExpireAt := None; auth_RevokedAt := None;
     auth_UserSessionDestroyedAt := None |}.

Definition rawSso : OrgMember :=
  {| om_ID := "u1"; om_Name := "Mr Llama"; om_Email := "llama@llamas.com";
     om_Role := "ADMIN"; om_Bot := false; om_Complimentary := true;
     om_CreatedAt := 1600000000; om_Authorization := Some ssoAuth |}.

Definition rawPlain : OrgMember :=
  {| om_ID := "u2"; om_Name := "Ms Alpaca"; om_Email := "alpaca@llamas.com";
     om_Role := "MEMBER"; om_Bot := false; om_Complimentary := false;
     om_CreatedAt := 1600000001; om_Authorization := None |}.

Definition rawBad : OrgMember :=
  {| om_ID := "u3"; om_Name := "No At"; om_Email := "not-an-email";
     om_Role := "MEMBER"; om_Bot := false; om_Complimentary := false;
     om_CreatedAt := 1600000002; om_Authorization := None |}.

(** What the two well-formed raw records normalise to in [llama-org]. *)
Definition normSso : Member :=
  {| ID := "u1"; Email := "llama@sso.example"; Domain := "sso.example";
     Name := "Mr Llama"; Org := "llama-org"; Role := "admin";
     LastAuth := Some 1642054620; Complimentary := true |}.

Definition normPlain : Member :=
  {| ID := "u2"; Email := "alpaca@llamas.com"; Domain := "llamas.com";
     Name := "Ms Alpaca"; Org := "llama-org"; Role := "member";
     LastAuth := None; Complimentary := false |}.

Definition normSsoWithoutAuth : Member :=
  {| ID := "u1"; Email := "llama@llamas.com"; Domain := "llamas.com";
     Name := "Mr Llama"; Org := "llama-org"; Role := "admin";
     LastAuth := None; Complimentary := true |}.

(** Two organizations served from memory; the world is the list of the
    slugs asked for so far. *)
Definition twoOrgs (orgSlug : string) (w : list string)
  : result (list OrgMember) * list string :=
  if String.eqb orgSlug "llama-org" then (inr [rawSso; rawPlain], w ++ [orgSlug])%list
  else if String.eqb orgSlug "bad-org" then (inr [rawPlain; rawBad], w ++ [orgSlug])%list
  else (inl (ErrOpaque "no such organization"), w ++ [orgSlug])%list.

Definition flags (orgSlugs dedupe : list string) (output email : string) : cli :=
  {| c_Debug := false; c_APIToken := "token"; c_OrgSlugs := orgSlugs;
     c_Cache := false; c_CacheDir := "./.cache"; c_Dedupe := dedupe;
     c_Output := output; c_Email := email |}.

(** A stand-in for [json.Unmarshal] into the error envelope: a body that
    starts with an exclamation mark carries two errors. *)
Definition envelopeStub (data : string) : list string :=
  match data with
  | String "!"%char _ => ["not authorized"; "try again"]
  | _ => []
  end.

(** A transport that answers every request with [resp]. *)
Definition answer (resp : HTTPResponse) (req : Request) (w : unit)
  : result HTTPResponse * unit := (inr resp, w).

(** A paging server.  The cursor of offset [n] is [n] letters long, a
    response body is the cursor it answers, and the decoder turns it into
    the page of [pageSize] edges that starts at that offset. *)
Fixpoint cursorOf (offset : nat) : string :=
  match offset with
  | O => EmptyString
  | S n => String "c"%char (cursorOf n)
  end.

Fixpoint varOf (name : string) (vars : list (string * string)) : string :=
  match vars with
  | [] => ""
  | (k, v) :: vars => if String.eqb k name then v else varOf name vars
  end.

Definition pagedDo (req : Request) (log : list Request)
  : result HTTPResponse * list Request :=
  (inr {| StatusCode := 200; Status := "200 OK";
          Body := inr (varOf "after" (req_Variables req)) |},
   (log ++ [req])%list).

Definition noErrors (data : string) : list string := [].

Definition pagedDecode (pageSize : nat) (all : list memberNode)
    (data : string) : result membersPage :=
  let offset := String.length data in
  inr {| PageInfo :=
           {| HasNextPage := Nat.ltb (offset + pageSize) (length all);
              EndCursor := cursorOf (offset + pageSize) |};
         Edges := take pageSize (drop offset all) |}.

Definition someClient : Client :=
  {| token := "token"; endpoint := graphQLEndpoint;
     header := [("Content-Type", "application/json");
                ("Authorization", "Bearer token")] |}.

(** The request for the page after [offset] of [orgSlug]. *)
Definition pageRequest (orgSlug : string) (offset : nat) : Request :=
  {| req_Header := header someClient;
     req_Query := TrimSpace orgMembersQuery;
     req_Variables := [("orgSlug", orgSlug); ("after", cursorOf offset)] |}.

(** The offsets a client walks through on [n] members. *)
Fixpoint pageOffsets (pageSize n fuel offset : nat) : list nat :=
  match fuel with
  | O => []
  | S fuel =>
      if Nat.ltb (offset + pageSize) n
      then offset :: pageOffsets pageSize n fuel (offset + pageSize)
      else [offset]
  end.

Definition edgeOf (i : nat) : memberNode :=
  {| mn_CreatedAt := Z.of_nat i; mn_Role := "MEMBER";
     mn_Complimentary := false; mn_UserID := cursorOf i;
     mn_UserName := "user"; mn_UserEmail := "user@example.com";
     mn_UserBot := false; mn_SsoAuthorizations := [] |}.

End Fixture.

(** ** More notions used in the statements *)

(** The raw records, each with the slug it was fetched under, that the
    fetches of [orgSlugs] yield one after the other from the world [w], up
    to the first fetch that fails. *)
Fixpoint fetchedRecords {World : Type}
    (getOrgMembers : string -> World -> result (list OrgMember) * World)
    (orgSlugs : list string) (w : World) : list (OrgMember * string) :=
  match orgSlugs with
  | [] => []
  | orgSlug :: orgSlugs =>
      match getOrgMembers orgSlug w with
      | (inl _, _) => []
      | (inr members, w) =>
          ((fun orgMember => (orgMember, orgSlug)) <$> members)
          ++ fetchedRecords getOrgMembers orgSlugs w
      end
  end.

(** A transport that keeps a list of the requests it was given, in the
    order they were sent, and hands each one to [httpDo]. *)
Definition recording {World : Type}
    (httpDo : Request -> World -> result HTTPResponse * World)
    (req : Request) (lw : list Request * World)
  : result HTTPResponse * (list Request * World) :=
  let '(res, w) := httpDo req lw.2 in (res, (lw.1 ++ [req], w))%list.

(** The request of the page after the cursor [after]. *)
Definition pageRequestOf (c : Client) (orgSlug after : string) : Request :=
  {| req_Header := header c;
     req_Query := TrimSpace orgMembersQuery;
     req_Variables := [("orgSlug", orgSlug); ("after", after)] |}.

(** ** The cache of [getMembers] *)

Section Cache.

(** The collaborators of the whole of [getMembers]: the client's
    [GetOrgMembers]; [os.MkdirAll], [os.Stat] (its error), [ioutil.ReadFile]
    and [ioutil.WriteFile]; [json.Marshal] and [json.Unmarshal] of a slice
    of raw records; [filepath.Join].  Looking at a file does not change the
    world. *)
Variable World : Type.
Variable ToLower : string -> string.
Variable clientGetOrgMembers :
  Client -> string -> World -> result (list OrgMember) * World.
Variable MkdirAll : string -> World -> option error * World.
Variable Stat : string -> World -> option error.
Variable ReadFile : string -> World -> result string.
Variable WriteFile : string -> string -> World -> option error * World.
Variable Marshal : list OrgMember -> result string.
Variable Unmarshal : string -> result (list OrgMember).
Variable filepath_Join : string -> string -> string.

(** The file the records of [orgSlug] are cached in. *)
Definition cacheFileOf (c : cli) (orgSlug : string) : string :=
  filepath_Join (c_CacheDir c) (orgSlug ++ ".json").

(** The function literal that [getMembers] switches in when the cache is
    on. *)
Definition cachedGetOrgMembers (c : cli) (client : Client)
    (orgSlug : string) (w : World) : result (list OrgMember) * World :=
  let cacheFile := cacheFileOf c orgSlug in
  match Stat cacheFile w with
  | None =>
      match ReadFile cacheFile w with
      | inl err => (inl err, w)
      | inr b =>
          match Unmarshal b with
          | inl err => (inl err, w)
          | inr result => (inr result, w)
          end
      end
  | Some _ =>
      match clientGetOrgMembers client orgSlug w with
      | (inl err, w) => (inl err, w)
      | (inr members, w) =>
          match Marshal members with
          | inl err => (inl err, w)
          | inr b =>
              match WriteFile cacheFile b w with
              | (Some err, w) => (inl err, w)
              | (None, w) => (inr members, w)
              end
          end
      end
  end.

(** The whole of [cli.getMembers]: the client, the cache decoration, and
    the loop [getMembersLoop] over the org slugs. *)
Definition cli_getMembers (c : cli) (w : World)
  : result (list Member) * World :=
  match NewClient (c_APIToken c) with
  | inl err => (inl err, w)
  | inr client =>
      if c_Cache c then
        match MkdirAll (c_CacheDir c) w with
        | (Some err, w) => (inl err, w)
        | (None, w) =>
            getMembersLoop World ToLower (cachedGetOrgMembers c client)
              (c_OrgSlugs c) [] w
        end
      else
        getMembersLoop World ToLower (clientGetOrgMembers client)
          (c_OrgSlugs c) [] w
  end.

End Cache.

(** A file system in memory, next to a remote world [R] that only the API
    touches: files are the keys of a map, every write succeeds. *)
Module MemFS.

Definition world (R : Type) : Type := gmap string string * R.

Definition MkdirAll {R : Type} (path : string) (w : world R)
  : option error * world R := (None, w).

Definition Stat {R : Type} (name : string) (w : world R) : option error :=
  match w.1 !! name with
  | Some _ => None
  | None => Some (ErrOpaque "stat: no such file or directory")
  end.

Definition ReadFile {R : Type} (name : string) (w : world R) : result string :=
  match w.1 !! name with
  | Some b => inr b
  | None => inl (ErrOpaque "open: no such file or directory")
  end.

Definition WriteFile {R : Type} (name data : string) (w : world R)
  : option error * world R := (None, (<[name := data]> w.1, w.2)).

Definition Join (dir name : string) : string := dir ++ "/" ++ name.

(** An API that acts on the remote world only. *)
Definition remote {R : Type}
    (api : Client -> string -> R -> result (list OrgMember) * R)
    (client : Client) (orgSlug : string) (w : world R)
  : result (list OrgMember) * world R :=
  let '(res, r) := api client orgSlug w.2 in (res, (w.1, r)).

(** [cachedGetOrgMembers] and [cli_getMembers] on this file system. *)
Definition cached {R : Type}
    (api : Client -> string -> R -> result (list OrgMember) * R)
    (Marshal : list OrgMember -> result string)
    (Unmarshal : string -> result (list OrgMember)) :=
  cachedGetOrgMembers (world R) (remote api) Stat ReadFile WriteFile
    Marshal Unmarshal Join.

Definition getMembers {R : Type} (ToLower : string -> string)
    (api : Client -> string -> R -> result (list OrgMember) * R)
    (Marshal : list OrgMember -> result string)
    (Unmarshal : string -> result (list OrgMember)) :=
  cli_getMembers (world R) ToLower (remote api) MkdirAll Stat ReadFile
    WriteFile Marshal Unmarshal Join.

End MemFS.

(** ** More stand-ins *)

Module Scenario.

(** A decoder for a server whose pages never end: every page is empty, has
    a next page and hands out the same cursor. *)
Definition endlessDecode (data : string) : result membersPage :=
  inr {| PageInfo := {| HasNextPage := true; EndCursor := "again" |};
         Edges := [] |}.

(** An edge with two SSO authorizations; only the first one counts. *)
Definition firstAuth : authNode :=
  {| an_ID := "auth-1"; an_IdentityName := "L. Lama";
     an_IdentityEmail := "llama@sso.example"; an_CreatedAt := 1642054620;
     an_ExpiredAt := None; an_RevokedAt := 0;
     an_UserSessionDestroyedAt := None |}.

Definition secondAuth : authNode :=
  {| an_ID := "auth-2"; an_IdentityName := "Old Lama";
     an_IdentityEmail := "old@sso.example"; an_CreatedAt := 1542054620;
     an_ExpiredAt := Some 1552054620; an_RevokedAt := 1552054620;
     an_UserSessionDestroyedAt := None |}.

Definition ssoEdge : memberNode :=
  {| mn_CreatedAt := 1600000000; mn_Role := "ADMIN";
     mn_Complimentary := true; mn_UserID := "u1";
     mn_UserName := "Mr Llama"; mn_UserEmail := "llama@llamas.com";
     mn_UserBot := false; mn_SsoAuthorizations := [firstAuth; secondAuth] |}.

(** A decoder that yields one page with [ssoEdge] and a plain edge. *)
Definition onePageDecode (data : string) : result membersPage :=
  inr {| PageInfo := {| HasNextPage := false; EndCursor := "" |};
         Edges := [ssoEdge; Fixture.edgeOf 7] |}.

End Scenario.

#[global] Instance Authorization_eq_dec : EqDecision Authorization.
Proof. solve_decision. Defined.

#[global] Instance OrgMember_eq_dec : EqDecision OrgMember.
Proof. solve_decision. Defined.

Module CacheScenario.

(** A codec that knows one slice of records by name. *)
Definition tableMarshal (members : list OrgMember) : result string :=
  if decide (members = [Fixture.rawSso; Fixture.rawPlain]) then inr "llamas"
  else inl (ErrOpaque "json: unsupported value").

Definition tableUnmarshal (data : string) : result (list OrgMember) :=
  if String.eqb data "llamas" then inr [Fixture.rawSso; Fixture.rawPlain]
  else inl (ErrOpaque "invalid character looking for beginning of value").

(** An API with one organization; its world counts the calls. *)
Definition apiUp (client : Client) (orgSlug : string) (calls : nat)
  : result (list OrgMember) * nat :=
  if String.eqb orgSlug "llama-org"
  then (inr [Fixture.rawSso; Fixture.rawPlain], S calls)
  else (inl (ErrOpaque "no such organization"), S calls).

(** An API that is down. *)
Definition apiDown (client : Client) (orgSlug : string) (calls : nat)
  : result (list OrgMember) * nat :=
  (inl (ErrOpaque "connection refused"), S calls).

Definition cachedFlags (orgSlugs : list string) : cli :=
  {| c_Debug := false; c_APIToken := "token"; c_OrgSlugs := orgSlugs;
     c_Cache := true; c_CacheDir := ".cache"; c_Dedupe := [];
     c_Output := "json"; c_Email := "" |}.

Definition notes : gmap string string := {["notes.txt" := "keep"]}.

Definition afterRun : gmap string string :=
  <[".cache/llama-org.json" := "llamas"]> notes.

(** A cache whose file for the organization is not JSON. *)
Definition corrupt : gmap string string :=
  {[".cache/llama-org.json" := "<html>"]}.

End CacheScenario.

(** ** Byte strings: the last at sign and the slice after it *)

Lemma substring_all (s : string) : substring 0 (String.length s) s = s.
Proof. induction s as [|a s IH]; simpl; [done | by rewrite IH]. Qed.

Lemma slice_from_app (pre : string) (c : ascii) (post : string) :
  slice_from (pre ++ String c post) (Z.of_nat (String.length pre) + 1) = post.
Proof.
  unfold slice_from.
  replace (Z.to_nat (Z.of_nat (String.length pre) + 1))
    with (S (String.length pre)) by lia.
  induction pre as [|a pre IH]; simpl.
  - rewrite Nat.sub_0_r. apply substring_all.
  - exact IH.
Qed.

Lemma LastIndexByte_lower (s : string) (c : ascii) : -1 <= LastIndexByte s c.
Proof.
  induction s as [|a s IH]; simpl; [lia |].
  destruct (0 <=? LastIndexByte s c) eqn:E; [lia |].
  destruct (Ascii.eqb a c); lia.
Qed.

(** Either [c] does not occur and the index is [-1], or the string splits
    at the index into a prefix, [c], and a suffix free of [c]. *)
Lemma LastIndexByte_spec (s : string) (c : ascii) :
  (LastIndexByte s c = -1 /\ contains_byte s c = false) \/
  (exists pre post,
      s = pre ++ String c post /\ contains_byte post c = false /\
      LastIndexByte s c = Z.of_nat (String.length pre)).
Proof.
  induction s as [|a s IH]; simpl; [by left |].
  destruct IH as [[Hm Hc] | (pre & post & Hs & Hpost & Hi)].
  - rewrite Hm, Hc. simpl.
    destruct (Ascii.eqb a c) eqn:E; [| by left].
    apply Ascii.eqb_eq in E. subst a. right. by exists EmptyString, s.
  - right. exists (String a pre), post. rewrite Hi. subst s.
    split; [done |]. split; [done |].
    destruct (0 <=? Z.of_nat (String.length pre)) eqn:E; simpl String.length; lia.
Qed.

Lemma LastIndexByte_absent (s : string) (c : ascii) :
  contains_byte s c = false <-> LastIndexByte s c = -1.
Proof.
  destruct (LastIndexByte_spec s c) as [[Hm Hc] | (pre & post & Hs & Hpost & Hi)].
  - by split.
  - split.
    + intros Hc. exfalso. subst s. clear Hi Hpost.
      induction pre as [|a pre IH]; simpl in Hc.
      * by rewrite Ascii.eqb_refl in Hc.
      * apply orb_false_iff in Hc. tauto.
    + lia.
Qed.

(** [getEmailDomain] succeeds exactly on the emails with an at sign, with
    the text after the last one. *)
Lemma getEmailDomain_ok (email domain : string) :
  getEmailDomain email = inr domain <->
  exists pre, email = pre ++ String at_sign domain /\
              contains_byte domain at_sign = false.
Proof.
  unfold getEmailDomain. split.
  - destruct (LastIndexByte_spec email at_sign)
      as [[Hm Hc] | (pre & post & Hs & Hpost & Hi)].
    + rewrite Hm. simpl. discriminate.
    + rewrite Hi.
      destruct (0 <=? Z.of_nat (String.length pre)) eqn:E; [| lia].
      intros [= <-]. exists pre. subst email.
      by rewrite slice_from_app.
  - intros (pre & -> & Hdom).
    destruct (LastIndexByte_spec (pre ++ String at_sign domain) at_sign)
      as [[Hm Hc] | (pre' & post' & Hs & Hpost & Hi)].
    + exfalso. clear Hm. induction pre as [|a pre IH]; simpl in Hc.
      * discriminate.
      * apply orb_false_iff in Hc. tauto.
    + rewrite Hi.
      destruct (0 <=? Z.of_nat (String.length pre')) eqn:E; [| lia].
      rewrite Hs, slice_from_app. f_equal.
      (* both splits cut at the last at sign *)
      clear Hi E. revert pre' Hs.
      induction pre as [|a pre IH]; intros [|a' pre'] Hs; simpl in Hs.
      * by injection Hs.
      * injection Hs as Ha Hs. subst domain a'.
        exfalso. clear -Hdom. induction pre' as [|b pre' IH]; simpl in Hdom.
        -- discriminate.
        -- apply orb_false_iff in Hdom. tauto.
      * injection Hs as Ha Hs. subst post' a.
        exfalso. clear -Hpost. induction pre as [|b pre IH]; simpl in Hpost.
        -- discriminate.
        -- apply orb_false_iff in Hpost. tauto.
      * injection Hs as Ha Hs. by apply (IH pre').
Qed.

Lemma getEmailDomain_err (email : string) :
  contains_byte email at_sign = false ->
  getEmailDomain email = inl (ErrInvalidEmail email).
Proof.
  intros H. unfold getEmailDomain.
  apply LastIndexByte_absent in H. by rewrite H.
Qed.

Lemma getEmailDomain_cases (email : string) :
  (contains_byte email at_sign = true /\ exists d, getEmailDomain email = inr d) \/
  (contains_byte email at_sign = false /\
   getEmailDomain email = inl (ErrInvalidEmail email)).
Proof.
  destruct (contains_byte email at_sign) eqn:E.
  - left. split; [done |]. unfold getEmailDomain.
    destruct (0 <=? LastIndexByte email at_sign) eqn:L; [by eexists |].
    pose proof (LastIndexByte_lower email at_sign).
    assert (LastIndexByte email at_sign = -1) as Hm by lia.
    apply LastIndexByte_absent in Hm. congruence.
  - right. split; [done |]. by apply getEmailDomain_err.
Qed.

(** ** Normalisation of one raw record *)

Section NormalizeFacts.

Variable ToLower : string -> string.

Lemma normalize_unfold (orgMember : OrgMember) (orgSlug : string) :
  normalize ToLower orgMember orgSlug =
  match getEmailDomain (effectiveEmail orgMember) with
  | inl err => inl err
  | inr domain =>
      inr {| ID := om_ID orgMember;
             Email := effectiveEmail orgMember;
             Domain := domain;
             Name := om_Name orgMember;
             Org := orgSlug;
             Role := ToLower (om_Role orgMember);
             LastAuth := auth_CreatedAt <$> om_Authorization orgMember;
             Complimentary := om_Complimentary orgMember |}
  end.
Proof.
  unfold normalize, effectiveEmail.
  destruct (om_Authorization orgMember) as [a|]; simpl;
    by destruct (getEmailDomain _).
Qed.

Lemma normalize_cases (orgMember : OrgMember) (orgSlug : string) :
  (contains_byte (effectiveEmail orgMember) at_sign = true /\
   exists m, normalize ToLower orgMember orgSlug = inr m) \/
  (contains_byte (effectiveEmail orgMember) at_sign = false /\
   normalize ToLower orgMember orgSlug =
     inl (ErrInvalidEmail (effectiveEmail orgMember))).
Proof.
  rewrite normalize_unfold.
  destruct (getEmailDomain_cases (effectiveEmail orgMember))
    as [[Hc [d Hd]] | [Hc He]]; rewrite ?Hd, ?He; [left | right]; eauto.
Qed.

Lemma firstInvalid_Some (members : list OrgMember) (orgMember : OrgMember) :
  In orgMember members ->
  contains_byte (effectiveEmail orgMember) at_sign = false ->
  exists email, firstInvalid members = Some email.
Proof.
  induction members as [|om members IH]; simpl; [done |].
  intros [-> | Hin] Hbad.
  - rewrite Hbad. eauto.
  - destruct (contains_byte (effectiveEmail om) at_sign); eauto.
Qed.

Lemma firstInvalid_sound (members : list OrgMember) (email : string) :
  firstInvalid members = Some email ->
  contains_byte email at_sign = false /\
  exists orgMember, In orgMember members /\ effectiveEmail orgMember = email.
Proof.
  induction members as [|om members IH]; simpl; [done |].
  destruct (contains_byte (effectiveEmail om) at_sign) eqn:E.
  - intros H. destruct (IH H) as [? (om' & ? & ?)]. eauto.
  - intros [= <-]. eauto.
Qed.

(** The inner loop either normalises every record, in order, or stops at
    the first record without an at sign. *)
Lemma normalizeAll_spec (members : list OrgMember) (orgSlug : string)
    (acc : list Member) :
  match firstInvalid members with
  | Some email =>
      normalizeAll ToLower members orgSlug acc = inl (ErrInvalidEmail email)
  | None =>
      exists ms,
        normalizeAll ToLower members orgSlug acc = inr (acc ++ ms)%list /\
        Forall2 (fun om m => normalize ToLower om orgSlug = inr m) members ms
  end.
Proof.
  revert acc. induction members as [|om members IH]; intros acc; simpl.
  - exists []. by rewrite app_nil_r.
  - destruct (normalize_cases om orgSlug) as [[Hc [m Hm]] | [Hc He]];
      rewrite Hc.
    + rewrite Hm. specialize (IH (acc ++ [m])%list).
      destruct (firstInvalid members); [done |].
      destruct IH as (ms & Heq & Hall). exists (m :: ms).
      rewrite Heq, <- app_assoc. by split; [| constructor].
    + by rewrite He.
Qed.

End NormalizeFacts.

(** ** The fetch loop of [getMembers] *)

Section FetchFacts.

Variable World : Type.
Variable ToLower : string -> string.
Variable getOrgMembers : string -> World -> result (list OrgMember) * World.

Local Abbreviation loop := (getMembersLoop World ToLower getOrgMembers).

Lemma getMembersLoop_app (pre post : list string) (acc : list Member)
    (w : World) :
  loop (pre ++ post)%list acc w =
  match loop pre acc w with
  | (inl err, w') => (inl err, w')
  | (inr acc', w') => loop post acc' w'
  end.
Proof.
  revert acc w. induction pre as [|s pre IH]; intros acc w; simpl; [done |].
  destruct (getOrgMembers s w) as [[err | members] w1]; [done |].
  destruct (normalizeAll ToLower members s acc) as [err | acc1]; [done |].
  apply IH.
Qed.

(** Every member of a successful fetch is the normalisation of a fetched
    record. *)
Lemma getMembersLoop_normalized (orgSlugs : list string) (acc res : list Member)
    (w w' : World) :
  loop orgSlugs acc w = (inr res, w') ->
  exists ms, res = (acc ++ ms)%list /\
    Forall (fun m => exists om orgSlug,
                normalize ToLower om orgSlug = inr m) ms.
Proof.
  revert acc w. induction orgSlugs as [|s orgSlugs IH]; intros acc w; simpl.
  - intros [= -> ->]. exists []. by rewrite app_nil_r.
  - destruct (getOrgMembers s w) as [[err | members] w1]; [done |].
    pose proof (normalizeAll_spec ToLower members s acc) as Hn.
    destruct (firstInvalid members) as [email|].
    + by rewrite Hn.
    + destruct Hn as (ms & -> & Hall). intros Hloop.
      destruct (IH _ _ Hloop) as (ms' & -> & Hall').
      exists (ms ++ ms')%list. rewrite app_assoc. split; [done |].
      apply Forall_app. split; [| done].
      clear -Hall. induction Hall; constructor; eauto.
Qed.

(** A record without an at sign in a fetched organization ends the whole
    fetch: later organizations are not asked for and the members gathered
    so far are dropped. *)
Lemma getMembersLoop_abort (pre post : list string) (orgSlug : string)
    (acc acc1 : list Member) (w w1 w2 : World) (members : list OrgMember)
    (email : string) :
  loop pre acc w = (inr acc1, w1) ->
  getOrgMembers orgSlug w1 = (inr members, w2) ->
  firstInvalid members = Some email ->
  loop (pre ++ orgSlug :: post)%list acc w = (inl (ErrInvalidEmail email), w2).
Proof.
  intros Hpre Hfetch Hbad. rewrite getMembersLoop_app, Hpre. simpl.
  rewrite Hfetch.
  pose proof (normalizeAll_spec ToLower members orgSlug acc1) as Hn.
  rewrite Hbad in Hn. by rewrite Hn.
Qed.

End FetchFacts.

(** C2: the domain of every normalised member is the text after the last
    at sign of its email, for one record and for every member a fetch
    returns; a record whose effective email has no at sign fails with the
    invalid-email error that names the email, and that failure is the result
    of the whole fetch over all organizations, with no member list. *)
Theorem C2_domain_or_invalid_email
    (World : Type) (ToLower : string -> string)
    (getOrgMembers : string -> World -> result (list OrgMember) * World) :
  (forall orgMember orgSlug m,
      normalize ToLower orgMember orgSlug = inr m ->
      DomainAfterLastAt m /\
      Domain m = slice_from (Email m) (LastIndexByte (Email m) at_sign + 1)) /\
  (forall c w members w',
      getMembers World ToLower getOrgMembers c w = (inr members, w') ->
      Forall DomainAfterLastAt members) /\
  (forall orgMember orgSlug,
      contains_byte (effectiveEmail orgMember) at_sign = false ->
      normalize ToLower orgMember orgSlug =
        inl (ErrInvalidEmail (effectiveEmail orgMember)) /\
      Error (ErrInvalidEmail (effectiveEmail orgMember)) =
        effectiveEmail orgMember ++ " is an invalid email address") /\
  (forall c pre orgSlug post w acc1 w1 members w2 orgMember,
      c_OrgSlugs c = (pre ++ orgSlug :: post)%list ->
      getMembersLoop World ToLower getOrgMembers pre [] w = (inr acc1, w1) ->
      getOrgMembers orgSlug w1 = (inr members, w2) ->
      In orgMember members ->
      contains_byte (effectiveEmail orgMember) at_sign = false ->
      exists email,
        firstInvalid members = Some email /\
        contains_byte email at_sign = false /\
        getMembers World ToLower getOrgMembers c w =
          (inl (ErrInvalidEmail email), w2)).
Proof.
  assert (forall orgMember orgSlug m,
      normalize ToLower orgMember orgSlug = inr m ->
      DomainAfterLastAt m /\
      Domain m = slice_from (Email m) (LastIndexByte (Email m) at_sign + 1))
    as Hone.
  { intros om s m. rewrite normalize_unfold.
    destruct (getEmailDomain (effectiveEmail om)) as [err | d] eqn:E; [done |].
    intros [= <-]. simpl. split.
    - apply getEmailDomain_ok in E as (pre & Hpre & Hd).
      split; [by exists pre | done].
    - unfold getEmailDomain in E.
      destruct (0 <=? LastIndexByte (effectiveEmail om) at_sign); congruence. }
  split; [exact Hone |]. split; [| split].
  - intros c w members w' H.
    destruct (getMembersLoop_normalized _ _ _ _ _ _ _ _ H) as (ms & -> & Hall).
    simpl. eapply Forall_impl; [exact Hall |].
    intros m (om & s & Hm). by apply (Hone om s).
  - intros om s Hbad. split; [| done].
    destruct (normalize_cases ToLower om s) as [[Hc _] | [_ He]]; congruence.
  - intros c pre s post w acc1 w1 members w2 om Hslugs Hpre Hfetch Hin Hbad.
    destruct (firstInvalid_Some members om Hin Hbad) as [email Hemail].
    exists email. split; [done |]. split.
    + by apply firstInvalid_sound in Hemail as [? _].
    + unfold getMembers. rewrite Hslugs.
      by eapply getMembersLoop_abort.
Qed.

Lemma C2_domain_or_invalid_email_witness :
  DomainAfterLastAt Fixture.normSso /\
  exists email,
    firstInvalid [Fixture.rawPlain; Fixture.rawBad] = Some email /\
    contains_byte email at_sign = false /\
    getMembers (list string) Fixture.ToLowerASCII Fixture.twoOrgs
      (Fixture.flags ["llama-org"; "bad-org"; "llama-org"] [] "json" "") [] =
    (inl (ErrInvalidEmail email), ["llama-org"; "bad-org"]).
Proof.
  pose proof (C2_domain_or_invalid_email (list string) Fixture.ToLowerASCII
                Fixture.twoOrgs) as (Hone & _ & _ & Habort).
  split.
  - apply (Hone Fixture.rawSso "llama-org" Fixture.normSso). reflexivity.
  - apply (Habort
             (Fixture.flags ["llama-org"; "bad-org"; "llama-org"] [] "json" "")
             ["llama-org"] "bad-org" ["llama-org"] []
             [Fixture.normSso; Fixture.normPlain] ["llama-org"]
             [Fixture.rawPlain; Fixture.rawBad] ["llama-org"; "bad-org"]
             Fixture.rawBad).
    + reflexivity.
    + reflexivity.
    + reflexivity.
    + simpl. right. left. reflexivity.
    + reflexivity.
Defined.

(** C3: a normalised member carries the identity email of the authorization
    when the raw record has one and the account email otherwise; its
    last-auth instant is the creation time of the authorization when there
    is one and null otherwise; its role is the lower-cased raw role. *)
Theorem C3_effective_email_lastauth_role
    (ToLower : string -> string) (orgMember : OrgMember) (orgSlug : string)
    (m : Member) :
  normalize ToLower orgMember orgSlug = inr m ->
  Email m = match om_Authorization orgMember with
            | Some a => auth_Email a
            | None => om_Email orgMember
            end /\
  LastAuth m = match om_Authorization orgMember with
               | Some a => Some (auth_CreatedAt a)
               | None => None
               end /\
  Role m = ToLower (om_Role orgMember).
Proof.
  unfold normalize.
  destruct (om_Authorization orgMember) as [a|]; simpl;
    destruct (getEmailDomain _) as [err | domain]; try done;
    by intros [= <-].
Qed.

Lemma C3_effective_email_lastauth_role_witness :
  (Email Fixture.normSso = "llama@sso.example" /\
   LastAuth Fixture.normSso = Some 1642054620 /\
   Role Fixture.normSso = Fixture.ToLowerASCII "ADMIN") /\
  (Email Fixture.normPlain = "alpaca@llamas.com" /\
   LastAuth Fixture.normPlain = None /\
   Role Fixture.normPlain = Fixture.ToLowerASCII "MEMBER").
Proof.
  split.
  - apply (C3_effective_email_lastauth_role Fixture.ToLowerASCII
             Fixture.rawSso "llama-org" Fixture.normSso). reflexivity.
  - apply (C3_effective_email_lastauth_role Fixture.ToLowerASCII
             Fixture.rawPlain "llama-org" Fixture.normPlain). reflexivity.
Defined.

(** C9: the name, id, role, organization and complimentary flag of a
    normalised member come from the account record and the org slug whether
    or not an authorization is present, so the name is the account name and
    not the SSO identity name; with an authorization, the member differs
    from the one normalised without it in the email, the last-auth instant
    and the domain derived from the email, and in nothing else. *)
Theorem C9_authorization_overrides_email_and_lastauth_only
    (ToLower : string -> string) (orgMember : OrgMember) (orgSlug : string)
    (m : Member) :
  normalize ToLower orgMember orgSlug = inr m ->
  (Name m = om_Name orgMember /\
   ID m = om_ID orgMember /\
   Role m = ToLower (om_Role orgMember) /\
   Org m = orgSlug /\
   Complimentary m = om_Complimentary orgMember) /\
  (forall a m0,
      om_Authorization orgMember = Some a ->
      normalize ToLower (dropAuthorization orgMember) orgSlug = inr m0 ->
      m = set_Domain
            (set_LastAuth (set_Email m0 (auth_Email a))
                          (Some (auth_CreatedAt a)))
            (Domain m)).
Proof.
  rewrite normalize_unfold.
  destruct (getEmailDomain (effectiveEmail orgMember)) as [err | d]; [done |].
  intros [= <-]. split; [done |].
  intros a m0 Ha. rewrite normalize_unfold.
  destruct (getEmailDomain _) as [err0 | d0]; [done |].
  intros [= <-]. unfold effectiveEmail. rewrite Ha. reflexivity.
Qed.

Lemma C9_authorization_overrides_email_and_lastauth_only_witness :
  (Name Fixture.normSso = "Mr Llama" /\
   ID Fixture.normSso = "u1" /\
   Role Fixture.normSso = Fixture.ToLowerASCII "ADMIN" /\
   Org Fixture.normSso = "llama-org" /\
   Complimentary Fixture.normSso = true) /\
  auth_Name Fixture.ssoAuth <> Name Fixture.normSso /\
  Fixture.normSso =
    set_Domain
      (set_LastAuth (set_Email Fixture.normSsoWithoutAuth "llama@sso.example")
                    (Some 1642054620))
      "sso.example".
Proof.
  pose proof (C9_authorization_overrides_email_and_lastauth_only
                Fixture.ToLowerASCII Fixture.rawSso "llama-org"
                Fixture.normSso eq_refl) as [Hframe Hdiff].
  split; [exact Hframe |]. split; [discriminate |].
  apply (Hdiff Fixture.ssoAuth Fixture.normSsoWithoutAuth); reflexivity.
Defined.

(** ** The duplicate report *)

Lemma reportEntry_email (members : list Member) (email : string)
    (r : MemberWithDuplicates) :
  reportEntry members email = Some r ->
  Email (mwd_Member r) = email /\
  filterMembersByEmail members email = mwd_Member r :: EmailDuplicates r /\
  NameDuplicates r =
    filterMembers members (fun m =>
      (String.eqb (Name m) (Name (mwd_Member r))
       && negb (String.eqb (Email m) (Email (mwd_Member r))))%bool).
Proof.
  unfold reportEntry.
  destruct (filterMembersByEmail members email) as [|member rest] eqn:E;
    [done |].
  intros [= <-]. simpl. split; [| done].
  assert (In member (filterMembersByEmail members email)) as Hin
    by (rewrite E; by left).
  apply filter_In in Hin as [_ Hin]. by apply String.eqb_eq.
Qed.

(** An email taken from the members never makes [byEmail[0]] panic. *)
Lemma reportEntry_total (members : list Member) (email : string) :
  email ∈ memberEmails members ->
  exists r, reportEntry members email = Some r.
Proof.
  intros Hin. apply list_elem_of_fmap in Hin as (m & -> & Hm).
  unfold reportEntry.
  destruct (filterMembersByEmail members (Email m)) as [|member rest] eqn:E;
    [| by eexists].
  exfalso. apply list_elem_of_In in Hm.
  assert (In m (filterMembersByEmail members (Email m))) as Hin.
  { apply filter_In. split; [done |]. apply String.eqb_refl. }
  by rewrite E in Hin.
Qed.

Lemma reportLoop_spec (members : list Member) (filterEmail : string)
    (emails : list string) :
  (forall email, email ∈ emails -> email ∈ memberEmails members) ->
  exists report,
    reportLoop members filterEmail emails = Some report /\
    Forall2 (fun email r => reportEntry members email = Some r)
            (keptEmails filterEmail emails) report.
Proof.
  induction emails as [|email emails IH]; intros Hsub; simpl.
  - exists []. split; [done | constructor].
  - destruct IH as (rest & Hrest & Hall).
    { intros e He. apply Hsub. by right. }
    unfold keptEmails in *. simpl.
    destruct (negb (String.eqb filterEmail "")
              && negb (String.eqb filterEmail email))%bool; simpl.
    + by exists rest.
    + destruct (reportEntry_total members email) as [r Hr];
        [apply Hsub; by left |].
      rewrite Hr, Hrest. exists (r :: rest). split; [done |].
      by constructor.
Qed.

Lemma sort_Strings_Permutation (x : list string) : sort_Strings x ≡ₚ x.
Proof. apply merge_sort_Permutation. Qed.

Lemma sort_Strings_Sorted (x : list string) : Sorted string_le (sort_Strings x).
Proof. apply (Sorted_merge_sort string_le). Qed.

(** The report exists for every member list and every filter; its entries
    are the entries of the kept emails, in the order of the sorted emails. *)
Lemma BuildReport_spec (members : list Member) (filterEmail : string) :
  exists report,
    BuildReport members filterEmail = Some report /\
    Forall2 (fun email r => reportEntry members email = Some r)
            (keptEmails filterEmail (sort_Strings (memberEmails members)))
            report.
Proof.
  apply reportLoop_spec. intros email Hin.
  by rewrite <- (sort_Strings_Permutation (memberEmails members)).
Qed.

Lemma BuildReport_entries (members : list Member) (filterEmail : string)
    (report : list MemberWithDuplicates) (r : MemberWithDuplicates) :
  BuildReport members filterEmail = Some report ->
  r ∈ report ->
  reportEntry members (Email (mwd_Member r)) = Some r.
Proof.
  intros Hb Hin.
  destruct (BuildReport_spec members filterEmail) as (report' & Hb' & Hall).
  assert (report' = report) as -> by congruence.
  clear Hb Hb'. induction Hall as [|email r' emails rs Hr Hall IH].
  - by apply elem_of_nil in Hin.
  - apply elem_of_cons in Hin as [-> | Hin]; [| by apply IH].
    by destruct (reportEntry_email _ _ _ Hr) as [-> _].
Qed.

(** ** The order of [sort.Strings] *)

Lemma string_compare_trans (s1 s2 s3 : string) :
  String.compare s1 s2 <> Gt -> String.compare s2 s3 <> Gt ->
  String.compare s1 s3 <> Gt.
Proof.
  revert s2 s3.
  induction s1 as [|a s1 IH]; intros [|b s2] [|c s3]; simpl; try done.
  unfold Ascii.compare.
  destruct (N.compare_spec (N_of_ascii a) (N_of_ascii b));
    destruct (N.compare_spec (N_of_ascii b) (N_of_ascii c));
    destruct (N.compare_spec (N_of_ascii a) (N_of_ascii c));
    try done; try lia.
  apply IH.
Qed.

#[global] Instance string_le_trans : Transitive string_le.
Proof.
  intros s1 s2 s3. unfold string_le, String.leb. intros H1 H2.
  pose proof (string_compare_trans s1 s2 s3) as H.
  destruct (String.compare s1 s2); try done;
    destruct (String.compare s2 s3); try done;
    destruct (String.compare s1 s3); try done; by destruct H.
Qed.

#[global] Instance string_le_antisym : AntiSymm (=) string_le.
Proof. intros s1 s2. apply String.leb_antisym. Qed.

#[global] Instance string_le_refl : Reflexive string_le.
Proof. intros s. by destruct (String.leb_total s s). Qed.

(** Whatever algorithm [sort.Strings] runs, its result is this list: the
    sorted rearrangement of a list of strings is unique. *)
Lemma sort_Strings_unique (x sorted : list string) :
  Sorted string_le sorted -> sorted ≡ₚ x -> sorted = sort_Strings x.
Proof.
  intros Hs Hp. apply (Sorted_unique string_le); [done | |].
  - apply sort_Strings_Sorted.
  - by rewrite Hp, sort_Strings_Permutation.
Qed.

Lemma Sorted_constant (email : string) (emails : list string) :
  Forall (fun e => e = email) emails -> Sorted string_le emails.
Proof.
  induction 1 as [|e emails -> Hall IH]; constructor; [done |].
  destruct Hall as [|e' emails' ->]; constructor. apply string_le_refl.
Qed.

Lemma keptEmails_no_filter (emails : list string) :
  keptEmails "" emails = emails.
Proof.
  unfold keptEmails. induction emails as [|e emails IH]; simpl; [done |].
  f_equal. exact IH.
Qed.

Lemma keptEmails_filter (filterEmail : string) (emails : list string) :
  filterEmail <> "" ->
  Forall (fun e => e = filterEmail) (keptEmails filterEmail emails).
Proof.
  intros Hne. apply Forall_forall. intros e Hin.
  apply list_elem_of_In, filter_In in Hin as [_ Hin].
  apply String.eqb_neq in Hne. rewrite Hne in Hin. simpl in Hin.
  apply negb_true_iff, negb_false_iff in Hin.
  symmetry. by apply String.eqb_eq.
Qed.

Lemma reportEntries_emails (members : list Member) (emails : list string)
    (report : list MemberWithDuplicates) :
  Forall2 (fun email r => reportEntry members email = Some r) emails report ->
  (fun r => Email (mwd_Member r)) <$> report = emails.
Proof.
  induction 1 as [|email r emails report Hr Hall IH]; csimpl; [done |].
  destruct (reportEntry_email _ _ _ Hr) as [-> _]. by rewrite IH.
Qed.

(** C1, as the code has it: the report has one entry per email of the
    sorted list of all member emails that passes the filter, so an email
    that k members share gets k entries, all with the first such member as
    representative; the emails of the entries ascend; each entry holds the
    first member with its email, the other members with that email, and the
    members with the same name and another email; without a filter there
    are as many entries as members.  The three llamas give three entries:
    the entry of a@x.com twice, then the entry of b@x.com. *)
Theorem C1_report_entry_per_member_email :
  (forall members filterEmail,
      exists report,
        BuildReport members filterEmail = Some report /\
        (fun r => Email (mwd_Member r)) <$> report =
          keptEmails filterEmail (sort_Strings (memberEmails members)) /\
        Sorted string_le ((fun r => Email (mwd_Member r)) <$> report) /\
        (filterEmail = "" ->
           (fun r => Email (mwd_Member r)) <$> report ≡ₚ memberEmails members /\
           length report = length members) /\
        (forall r, r ∈ report ->
           filterMembersByEmail members (Email (mwd_Member r)) =
             mwd_Member r :: EmailDuplicates r /\
           NameDuplicates r =
             filterMembers members (fun m =>
               (String.eqb (Name m) (Name (mwd_Member r))
                && negb (String.eqb (Email m) (Email (mwd_Member r))))%bool))) /\
  BuildReport Fixture.llamas "" =
    Some [Fixture.entryA; Fixture.entryA; Fixture.entryB].
Proof.
  split; [| reflexivity].
  intros members filterEmail.
  destruct (BuildReport_spec members filterEmail) as (report & Hb & Hall).
  exists report. split; [done |].
  pose proof (reportEntries_emails _ _ _ Hall) as Hemails.
  split; [done |]. rewrite Hemails. split; [| split].
  - destruct (decide (filterEmail = "")) as [-> | Hne].
    + rewrite keptEmails_no_filter. apply sort_Strings_Sorted.
    + eapply Sorted_constant. by apply keptEmails_filter.
  - intros ->. rewrite keptEmails_no_filter in *. split.
    + apply sort_Strings_Permutation.
    + rewrite <- (length_fmap (fun r => Email (mwd_Member r)) report), Hemails.
      rewrite (sort_Strings_Permutation (memberEmails members)).
      apply length_fmap.
  - intros r Hin.
    pose proof (BuildReport_entries _ _ _ _ Hb Hin) as Hr.
    by destruct (reportEntry_email _ _ _ Hr) as (_ & ? & ?).
Qed.

Lemma C1_report_entry_per_member_email_witness :
  exists report,
    BuildReport Fixture.llamas "" = Some report /\ length report = 3%nat.
Proof.
  destruct (proj1 C1_report_entry_per_member_email Fixture.llamas "")
    as (report & Hb & _ & _ & Hn & _).
  exists report. split; [exact Hb |]. exact (proj2 (Hn eq_refl)).
Defined.

Lemma C1_counterexample :
  ~ (exists report,
        BuildReport Fixture.llamas "" = Some report /\ length report = 2%nat).
Proof. intros (report & Hr & Hlen). vm_compute in Hr. by injection Hr as <-. Qed.

(** ** The collapse of duplicates *)

Lemma markSeen_mono (dups : list Member) (seenMembers : gmap string bool)
    (id : string) :
  is_Some (seenMembers !! id) -> is_Some (markSeen dups seenMembers !! id).
Proof.
  revert seenMembers. induction dups as [|rr dups IH]; intros seen H; simpl;
    [done |].
  apply IH. rewrite lookup_insert. case_decide; [by eexists | done].
Qed.

Lemma seenAfter_mono (dedupeEmail dedupeName : bool)
    (r : MemberWithDuplicates) (seenMembers : gmap string bool) (id : string) :
  is_Some (seenMembers !! id) ->
  is_Some (seenAfter dedupeEmail dedupeName r seenMembers !! id).
Proof.
  intros H. unfold seenAfter.
  assert (is_Some (<[ID (mwd_Member r) := true]> seenMembers !! id)) as H1.
  { rewrite lookup_insert. case_decide; [by eexists | done]. }
  destruct dedupeEmail, dedupeName; eauto using markSeen_mono.
Qed.

Lemma seenAfter_self (dedupeEmail dedupeName : bool)
    (r : MemberWithDuplicates) (seenMembers : gmap string bool) :
  is_Some (seenAfter dedupeEmail dedupeName r seenMembers
             !! ID (mwd_Member r)).
Proof.
  unfold seenAfter.
  assert (is_Some (<[ID (mwd_Member r) := true]> seenMembers
                     !! ID (mwd_Member r))) as H1.
  { rewrite lookup_insert_eq. by eexists. }
  destruct dedupeEmail, dedupeName; eauto using markSeen_mono.
Qed.

(** The two ways one round of the loop goes. *)
Lemma collapseLoop_skip (dedupeEmail dedupeName : bool)
    (r : MemberWithDuplicates) (report : list MemberWithDuplicates)
    (seenMembers : gmap string bool) :
  is_Some (seenMembers !! ID (mwd_Member r)) ->
  collapseLoop dedupeEmail dedupeName (r :: report) seenMembers =
  collapseLoop dedupeEmail dedupeName report seenMembers.
Proof. intros [b Hb]. simpl. by rewrite Hb. Qed.

Lemma collapseLoop_keep (dedupeEmail dedupeName : bool)
    (r : MemberWithDuplicates) (report : list MemberWithDuplicates)
    (seenMembers : gmap string bool) :
  seenMembers !! ID (mwd_Member r) = None ->
  collapseLoop dedupeEmail dedupeName (r :: report) seenMembers =
  r :: collapseLoop dedupeEmail dedupeName report
         (seenAfter dedupeEmail dedupeName r seenMembers).
Proof. intros Hb. simpl. by rewrite Hb. Qed.

(** Every kept entry comes from the report, was unseen when the loop
    started, and no id is kept twice. *)
Lemma collapseLoop_kept (dedupeEmail dedupeName : bool)
    (report : list MemberWithDuplicates) (seenMembers : gmap string bool) :
  let out := collapseLoop dedupeEmail dedupeName report seenMembers in
  NoDup ((fun r => ID (mwd_Member r)) <$> out) /\
  (forall r, r ∈ out ->
     r ∈ report /\ seenMembers !! ID (mwd_Member r) = None).
Proof.
  revert seenMembers.
  induction report as [|r report IH]; intros seen; cbn zeta.
  - simpl. split; [constructor |]. intros r Hin. by apply elem_of_nil in Hin.
  - destruct (seen !! ID (mwd_Member r)) as [b|] eqn:E.
    + rewrite collapseLoop_skip by eauto.
      destruct (IH seen) as [Hnd Hall]. split; [done |].
      intros r' Hin. destruct (Hall r' Hin). split; [by right | done].
    + rewrite collapseLoop_keep by done.
      destruct (IH (seenAfter dedupeEmail dedupeName r seen)) as [Hnd Hall].
      split.
      * csimpl. apply NoDup_cons. split; [| done].
        intros Hin. apply list_elem_of_fmap in Hin as (r' & Hid & Hin).
        destruct (Hall r' Hin) as [_ Hnone].
        pose proof (seenAfter_self dedupeEmail dedupeName r seen) as Hs.
        rewrite Hid, Hnone in Hs. by destruct Hs.
      * intros r' Hin. apply elem_of_cons in Hin as [-> | Hin].
        -- split; [by left | done].
        -- destruct (Hall r' Hin) as [Hr Hnone]. split; [by right |].
           destruct (seen !! ID (mwd_Member r')) eqn:E'; [| done].
           pose proof (seenAfter_mono dedupeEmail dedupeName r seen
                         (ID (mwd_Member r'))) as Hs.
           rewrite E', Hnone in Hs. by destruct Hs; [eexists |].
Qed.

Lemma markSeen_lookup (dups : list Member) (seenMembers : gmap string bool)
    (id : string) :
  is_Some (markSeen dups seenMembers !! id) <->
  is_Some (seenMembers !! id) \/ id ∈ ID <$> dups.
Proof.
  revert seenMembers. induction dups as [|rr dups IH]; intros seen; csimpl.
  - split; [by left |]. intros [H | H]; [done | by apply elem_of_nil in H].
  - rewrite IH, lookup_insert, elem_of_cons. case_decide as Hid.
    + split; [| by left; eexists]. intros _. right. by left.
    + split; [tauto |]. intros [H | [H | H]]; [tauto | congruence | tauto].
Qed.

(** The ids seen after an entry was kept are the ids seen before, the id of
    the entry and, for each flag that is set, the ids of the duplicates of
    that kind. *)
Lemma seenAfter_lookup (dedupeEmail dedupeName : bool)
    (r : MemberWithDuplicates) (seenMembers : gmap string bool) (id : string) :
  is_Some (seenAfter dedupeEmail dedupeName r seenMembers !! id) <->
  is_Some (seenMembers !! id) \/ id = ID (mwd_Member r) \/
  (dedupeEmail = true /\ id ∈ ID <$> EmailDuplicates r) \/
  (dedupeName = true /\ id ∈ ID <$> NameDuplicates r).
Proof.
  assert (is_Some (<[ID (mwd_Member r) := true]> seenMembers !! id) <->
          is_Some (seenMembers !! id) \/ id = ID (mwd_Member r)) as Hins.
  { rewrite lookup_insert. case_decide as Hid.
    - split; [by right | by eexists].
    - split; [by left |]. intros [H | H]; [done | congruence]. }
  unfold seenAfter. destruct dedupeEmail, dedupeName;
    rewrite ?markSeen_lookup, Hins; intuition congruence.
Qed.

Lemma Collapse_ids_inj (report : list MemberWithDuplicates)
    (dedupeEmail dedupeName : bool) (i j : nat)
    (ri rj : MemberWithDuplicates) :
  (dedupeEmail || dedupeName)%bool = true ->
  Collapse report dedupeEmail dedupeName !! i = Some ri ->
  Collapse report dedupeEmail dedupeName !! j = Some rj ->
  ID (mwd_Member ri) = ID (mwd_Member rj) -> i = j.
Proof.
  intros Hflags. unfold Collapse. rewrite Hflags.
  destruct (collapseLoop_kept dedupeEmail dedupeName report ∅) as [Hnd _].
  cbn zeta in Hnd. intros Hi Hj Hid.
  eapply (NoDup_lookup _ i j (ID (mwd_Member ri))); [exact Hnd | |].
  - by rewrite list_lookup_fmap, Hi.
  - by rewrite list_lookup_fmap, Hj, Hid.
Qed.

Lemma Collapse_subset (report : list MemberWithDuplicates)
    (dedupeEmail dedupeName : bool) (r : MemberWithDuplicates) :
  r ∈ Collapse report dedupeEmail dedupeName -> r ∈ report.
Proof.
  unfold Collapse. destruct (dedupeEmail || dedupeName)%bool; [| done].
  intros Hin.
  by destruct (collapseLoop_kept dedupeEmail dedupeName report ∅)
    as [_ Hall]; destruct (Hall r Hin).
Qed.

(** C5: with neither flag set the collapse hands the report back as it is,
    element for element and in the same order. *)
Theorem C5_collapse_without_flags_is_identity
    (report : list MemberWithDuplicates) :
  Collapse report false false = report /\
  (forall i, Collapse report false false !! i = report !! i).
Proof. split; [reflexivity | intros i; reflexivity]. Qed.

(** C10: with at least one of the two flags set, no id is the
    representative of two entries of the collapsed report, whatever the
    report handed in, also one with several entries under one id. *)
Theorem C10_collapsed_representatives_distinct
    (report : list MemberWithDuplicates) (dedupeEmail dedupeName : bool) :
  (dedupeEmail || dedupeName)%bool = true ->
  NoDup ((fun r => ID (mwd_Member r)) <$>
           Collapse report dedupeEmail dedupeName) /\
  (forall i j ri rj,
      Collapse report dedupeEmail dedupeName !! i = Some ri ->
      Collapse report dedupeEmail dedupeName !! j = Some rj ->
      ID (mwd_Member ri) = ID (mwd_Member rj) -> i = j).
Proof.
  intros Hflags. split.
  - unfold Collapse. rewrite Hflags.
    by destruct (collapseLoop_kept dedupeEmail dedupeName report ∅).
  - intros i j ri rj. by apply Collapse_ids_inj.
Qed.

Lemma C10_collapsed_representatives_distinct_witness :
  NoDup ((fun r => ID (mwd_Member r)) <$>
           Collapse [Fixture.entryA; Fixture.entryA; Fixture.entryB]
                    false true) /\
  Collapse [Fixture.entryA; Fixture.entryA; Fixture.entryB] true false =
    [Fixture.entryA; Fixture.entryB].
Proof.
  split; [| reflexivity].
  apply (C10_collapsed_representatives_distinct
           [Fixture.entryA; Fixture.entryA; Fixture.entryB] false true).
  reflexivity.
Defined.

(** The head of a filtered list is the first element that passes. *)
Lemma filter_head_first {A : Type} (f : A -> bool) (l : list A) (x : A)
    (rest : list A) :
  List.filter f l = x :: rest ->
  exists pre post,
    l = (pre ++ x :: post)%list /\ Forall (fun y => f y = false) pre /\
    f x = true /\ rest = List.filter f post.
Proof.
  induction l as [|y l IH]; simpl; [done |].
  destruct (f y) eqn:E.
  - intros [= -> <-]. by exists [], l.
  - intros H. destruct (IH H) as (pre & post & -> & Hpre & Hx & Hrest).
    exists (y :: pre), post. split; [done |]. split; [by constructor | done].
Qed.

(** C4: on the report of any member list, the collapse by email keeps at
    most one entry per email; every kept entry holds the first member of the
    list with its email together with the other members with that email; the
    loop walks the report in order, skips an entry whose id was seen, and on
    keeping one marks its id and the id of each of its email duplicates. *)
Theorem C4_collapse_by_email_keeps_first_member
    (members : list Member) (filterEmail : string) (dedupeName : bool)
    (report : list MemberWithDuplicates) :
  BuildReport members filterEmail = Some report ->
  (forall i j ri rj,
      Collapse report true dedupeName !! i = Some ri ->
      Collapse report true dedupeName !! j = Some rj ->
      Email (mwd_Member ri) = Email (mwd_Member rj) -> i = j) /\
  (forall r, r ∈ Collapse report true dedupeName ->
      exists pre post,
        members = (pre ++ mwd_Member r :: post)%list /\
        Forall (fun m => Email m <> Email (mwd_Member r)) pre /\
        EmailDuplicates r =
          filterMembersByEmail post (Email (mwd_Member r))) /\
  Collapse report true dedupeName = collapseLoop true dedupeName report ∅ /\
  (forall r rest seenMembers,
      (is_Some (seenMembers !! ID (mwd_Member r)) ->
       collapseLoop true dedupeName (r :: rest) seenMembers =
       collapseLoop true dedupeName rest seenMembers) /\
      (seenMembers !! ID (mwd_Member r) = None ->
       exists seenMembers',
         collapseLoop true dedupeName (r :: rest) seenMembers =
         r :: collapseLoop true dedupeName rest seenMembers' /\
         forall id,
           is_Some (seenMembers' !! id) <->
           is_Some (seenMembers !! id) \/ id = ID (mwd_Member r) \/
           id ∈ ID <$> EmailDuplicates r \/
           (dedupeName = true /\ id ∈ ID <$> NameDuplicates r))).
Proof.
  intros Hb. split; [| split; [| split]].
  - intros i j ri rj Hi Hj Hemail.
    assert (ri = rj) as Heq.
    { assert (ri ∈ report) as Hri
        by (eapply Collapse_subset, list_elem_of_lookup_2, Hi).
      assert (rj ∈ report) as Hrj
        by (eapply Collapse_subset, list_elem_of_lookup_2, Hj).
      apply (BuildReport_entries _ _ _ _ Hb) in Hri, Hrj.
      rewrite Hemail in Hri. congruence. }
    eapply (Collapse_ids_inj report true dedupeName); eauto. by rewrite Heq.
  - intros r Hin. apply Collapse_subset in Hin.
    pose proof (BuildReport_entries _ _ _ r Hb Hin) as Hr.
    destruct (reportEntry_email _ _ _ Hr) as (_ & Hfilter & _).
    apply filter_head_first in Hfilter as (pre & post & -> & Hpre & _ & Hrest).
    exists pre, post. split; [done |]. split; [| done].
    eapply Forall_impl; [exact Hpre |]. intros m Hm. simpl in Hm.
    by apply String.eqb_neq.
  - reflexivity.
  - intros r rest seen. split.
    + apply collapseLoop_skip.
    + intros Hnone. exists (seenAfter true dedupeName r seen).
      split; [by apply collapseLoop_keep |].
      intros id. rewrite seenAfter_lookup. intuition.
Qed.

Lemma C4_collapse_by_email_keeps_first_member_witness :
  (forall i j ri rj,
      Collapse [Fixture.entryA; Fixture.entryA; Fixture.entryB] true false !! i
        = Some ri ->
      Collapse [Fixture.entryA; Fixture.entryA; Fixture.entryB] true false !! j
        = Some rj ->
      Email (mwd_Member ri) = Email (mwd_Member rj) -> i = j) /\
  Collapse [Fixture.entryA; Fixture.entryA; Fixture.entryB] true false =
    [Fixture.entryA; Fixture.entryB].
Proof.
  split; [| reflexivity].
  apply (C4_collapse_by_email_keeps_first_member Fixture.llamas "" false
           [Fixture.entryA; Fixture.entryA; Fixture.entryB]).
  reflexivity.
Defined.

(** ** The response check of the client *)

(** C6: for a response whose body was read, [Do] fails with the API error
    that carries every message of the error envelope, joined, when the
    envelope has messages, whatever the status; without messages it fails
    with the status error when the status is not 200; otherwise it returns
    the response with the buffered body and no error. *)
Theorem C6_response_errors
    (World : Type) (httpDo : Request -> World -> result HTTPResponse * World)
    (unmarshalErrors : string -> list string)
    (c : Client) (query : string) (vars : list (string * string))
    (w w' : World) (r : HTTPResponse) (data : string) :
  httpDo {| req_Header := header c; req_Query := TrimSpace query;
            req_Variables := vars |} w = (inr r, w') ->
  Body r = inr data ->
  let buffered := {| StatusCode := StatusCode r; Status := Status r;
                     Body := inr data |} in
  (unmarshalErrors data <> [] ->
   Do World httpDo unmarshalErrors c query vars w =
     (inr (buffered, Some (ErrResponse (unmarshalErrors data))), w') /\
   Error (ErrResponse (unmarshalErrors data)) =
     "graphql error: " ++ Join (unmarshalErrors data) ", ") /\
  (unmarshalErrors data = [] -> StatusCode r <> StatusOK ->
   Do World httpDo unmarshalErrors c query vars w =
     (inr (buffered, Some (ErrStatus (Status r))), w')) /\
  (unmarshalErrors data = [] -> StatusCode r = StatusOK ->
   Do World httpDo unmarshalErrors c query vars w =
     (inr (buffered, None), w')).
Proof.
  intros Hdo Hbody buffered. unfold Do. rewrite Hdo.
  unfold checkResponseForErrors. rewrite Hbody. fold buffered.
  split; [| split].
  - intros Hne. split; [| done].
    destruct (unmarshalErrors data); [done |]. reflexivity.
  - intros -> Hstatus. simpl.
    apply Z.eqb_neq in Hstatus. by rewrite Hstatus.
  - intros -> Hstatus. simpl.
    apply Z.eqb_eq in Hstatus. by rewrite Hstatus.
Qed.

Lemma C6_response_errors_witness :
  Do unit
     (Fixture.answer {| StatusCode := 401; Status := "401 Unauthorized";
                        Body := inr "!errors" |})
     Fixture.envelopeStub Fixture.someClient orgMembersQuery [] tt =
    (inr ({| StatusCode := 401; Status := "401 Unauthorized";
             Body := inr "!errors" |},
          Some (ErrResponse ["not authorized"; "try again"])), tt) /\
  Error (ErrResponse ["not authorized"; "try again"]) =
    "graphql error: not authorized, try again" /\
  Do unit
     (Fixture.answer {| StatusCode := 502; Status := "502 Bad Gateway";
                        Body := inr "<html>" |})
     Fixture.envelopeStub Fixture.someClient orgMembersQuery [] tt =
    (inr ({| StatusCode := 502; Status := "502 Bad Gateway";
             Body := inr "<html>" |},
          Some (ErrStatus "502 Bad Gateway")), tt) /\
  Do unit
     (Fixture.answer {| StatusCode := 200; Status := "200 OK";
                        Body := inr "{}" |})
     Fixture.envelopeStub Fixture.someClient orgMembersQuery [] tt =
    (inr ({| StatusCode := 200; Status := "200 OK"; Body := inr "{}" |},
          None), tt).
Proof.
  split; [| split; [| split]].
  - apply (C6_response_errors unit
             (Fixture.answer {| StatusCode := 401;
                                Status := "401 Unauthorized";
                                Body := inr "!errors" |})
             Fixture.envelopeStub Fixture.someClient orgMembersQuery [] tt tt
             _ "!errors" eq_refl eq_refl).
    discriminate.
  - reflexivity.
  - apply (C6_response_errors unit
             (Fixture.answer {| StatusCode := 502; Status := "502 Bad Gateway";
                                Body := inr "<html>" |})
             Fixture.envelopeStub Fixture.someClient orgMembersQuery [] tt tt
             _ "<html>" eq_refl eq_refl); [reflexivity | discriminate].
  - apply (C6_response_errors unit
             (Fixture.answer {| StatusCode := 200; Status := "200 OK";
                                Body := inr "{}" |})
             Fixture.envelopeStub Fixture.someClient orgMembersQuery [] tt tt
             _ "{}" eq_refl eq_refl); reflexivity.
Defined.

(** ** The cursor loop of the fetcher *)

Lemma cursorOf_length (offset : nat) : String.length (Fixture.cursorOf offset) = offset.
Proof. induction offset as [|n IH]; simpl; [done | by rewrite IH]. Qed.

Lemma cursorOf_empty (offset : nat) :
  String.eqb (Fixture.cursorOf offset) "" = Nat.eqb offset 0.
Proof. by destruct offset. Qed.

(** One page of the paging server. *)
Lemma paged_getOrgMembersPage (pageSize : nat) (all : list memberNode)
    (orgSlug : string) (offset : nat) (log : list Request) :
  getOrgMembersPage (list Request) Fixture.pagedDo Fixture.noErrors
    (Fixture.pagedDecode pageSize all) Fixture.someClient orgSlug
    (Fixture.cursorOf offset) log =
  (inr (memberOfEdge <$> take pageSize (drop offset all),
        nextCursor {| HasNextPage := Nat.ltb (offset + pageSize) (length all);
                      EndCursor := Fixture.cursorOf (offset + pageSize) |}),
   (log ++ [Fixture.pageRequest orgSlug offset])%list).
Proof.
  unfold getOrgMembersPage, Do, Fixture.pagedDo, checkResponseForErrors,
    DecodeInto, Fixture.pagedDecode, Fixture.noErrors, Fixture.pageRequest.
  cbn [Body StatusCode Status req_Variables Fixture.varOf length].
  change (String.eqb "orgSlug" "after") with false.
  change (String.eqb "after" "after") with true.
  change (0 <? 0)%nat with false.
  change (200 =? StatusOK) with true.
  cbn [negb Body PageInfo Edges].
  by rewrite cursorOf_length.
Qed.

(** Against the paging server the loop returns every member from the
    cursor on, in order, and sends one request per page offset. *)
Lemma paged_loop (pageSize : nat) (all : list memberNode) (orgSlug : string) :
  (0 < pageSize)%nat ->
  forall (fuel offset : nat) (acc : list OrgMember) (log : list Request),
    (0 < fuel)%nat ->
    (length all <= offset + fuel * pageSize)%nat ->
    GetOrgMembers_loop (list Request) Fixture.pagedDo Fixture.noErrors
      (Fixture.pagedDecode pageSize all) fuel Fixture.someClient orgSlug
      (Fixture.cursorOf offset) acc log =
    Some (inr (acc ++ (memberOfEdge <$> drop offset all))%list,
          (log ++ (Fixture.pageRequest orgSlug <$>
                     Fixture.pageOffsets pageSize (length all) fuel offset))%list).
Proof.
  intros Hsize fuel.
  induction fuel as [|fuel IH]; intros offset acc log Hfuel Hlen; [lia |].
  cbn [GetOrgMembers_loop Fixture.pageOffsets].
  rewrite paged_getOrgMembersPage.
  unfold nextCursor. cbn [HasNextPage EndCursor].
  rewrite cursorOf_empty.
  destruct (Nat.ltb (offset + pageSize) (length all)) eqn:E.
  - apply Nat.ltb_lt in E.
    replace (Nat.eqb (offset + pageSize) 0) with false
      by (symmetry; apply Nat.eqb_neq; lia).
    cbn [negb andb]. rewrite cursorOf_empty.
    replace (Nat.eqb (offset + pageSize) 0) with false
      by (symmetry; apply Nat.eqb_neq; lia).
    rewrite IH by nia.
    rewrite <- !app_assoc, <- fmap_app, <- drop_drop, take_drop.
    by rewrite fmap_cons.
  - apply Nat.ltb_ge in E. cbn [andb]. cbn [String.eqb].
    rewrite take_ge by (rewrite length_drop; lia).
    reflexivity.
Qed.

(** C7: the fetcher starts from the empty cursor; a page hands back its end
    cursor when it has a next page and that cursor is not empty, and the
    empty cursor otherwise; the loop goes on with a cursor that is not
    empty, stops on the empty one with the members gathered so far, and
    stops with the error of a page that fails; each request asks the
    members query for its first 100 members after the cursor.  An
    organization of 250 members served 100 per page takes three requests
    (after nothing, after 100, after 200) and yields its 250 members in the
    order of the pages. *)
Theorem C7_cursor_pagination :
  (forall World httpDo unmarshalErrors decodePage fuel c orgSlug w,
      GetOrgMembers World httpDo unmarshalErrors decodePage fuel c orgSlug w =
      GetOrgMembers_loop World httpDo unmarshalErrors decodePage fuel c
        orgSlug "" [] w) /\
  (forall p,
      (HasNextPage p = true /\ EndCursor p <> "" ->
       nextCursor p = EndCursor p) /\
      (HasNextPage p = false \/ EndCursor p = "" -> nextCursor p = "")) /\
  (forall World httpDo unmarshalErrors decodePage fuel c orgSlug after acc
          w members nextAfter w',
      getOrgMembersPage World httpDo unmarshalErrors decodePage c orgSlug
        after w = (inr (members, nextAfter), w') ->
      (nextAfter = "" ->
       GetOrgMembers_loop World httpDo unmarshalErrors decodePage (S fuel) c
         orgSlug after acc w = Some (inr (acc ++ members)%list, w')) /\
      (nextAfter <> "" ->
       GetOrgMembers_loop World httpDo unmarshalErrors decodePage (S fuel) c
         orgSlug after acc w =
       GetOrgMembers_loop World httpDo unmarshalErrors decodePage fuel c
         orgSlug nextAfter (acc ++ members)%list w')) /\
  (forall World httpDo unmarshalErrors decodePage fuel c orgSlug after acc
          w err w',
      getOrgMembersPage World httpDo unmarshalErrors decodePage c orgSlug
        after w = (inl err, w') ->
      GetOrgMembers_loop World httpDo unmarshalErrors decodePage (S fuel) c
        orgSlug after acc w = Some (inl err, w')) /\
  (forall orgSlug offset,
      req_Variables (Fixture.pageRequest orgSlug offset) =
        [("orgSlug", orgSlug); ("after", Fixture.cursorOf offset)] /\
      is_Some (String.index 0 "members(first: 100, after: $after)"
                 (req_Query (Fixture.pageRequest orgSlug offset)))) /\
  (forall (all : list memberNode) (orgSlug : string) (fuel : nat),
      length all = 250%nat -> (3 <= fuel)%nat ->
      exists log,
        GetOrgMembers (list Request) Fixture.pagedDo Fixture.noErrors
          (Fixture.pagedDecode 100 all) fuel Fixture.someClient orgSlug [] =
        Some (inr (memberOfEdge <$> all), log) /\
        log = [Fixture.pageRequest orgSlug 0;
               Fixture.pageRequest orgSlug 100;
               Fixture.pageRequest orgSlug 200] /\
        length log = 3%nat /\
        length (memberOfEdge <$> all) = 250%nat).
Proof.
  split; [done |]. split; [| split; [| split; [| split]]].
  - intros p. unfold nextCursor. split.
    + intros [-> Hne]. apply String.eqb_neq in Hne. by rewrite Hne.
    + intros [-> | ->]; [done |]. by rewrite andb_false_r.
  - intros World httpDo unmarshalErrors decodePage fuel c orgSlug after acc
      w members nextAfter w' Hpage.
    cbn [GetOrgMembers_loop]. rewrite Hpage. split.
    + by intros ->.
    + intros Hne. apply String.eqb_neq in Hne. by rewrite Hne.
  - intros World httpDo unmarshalErrors decodePage fuel c orgSlug after acc
      w err w' Hpage.
    cbn [GetOrgMembers_loop]. by rewrite Hpage.
  - intros orgSlug offset. split; [done |]. vm_compute. by eexists.
  - intros all orgSlug fuel Hlen Hfuel.
    exists [Fixture.pageRequest orgSlug 0; Fixture.pageRequest orgSlug 100;
            Fixture.pageRequest orgSlug 200].
    split; [| split; [| split]].
    + unfold GetOrgMembers.
      pose proof (paged_loop 100 all orgSlug ltac:(lia) fuel 0 [] []
                    ltac:(lia) ltac:(lia)) as Hloop.
      cbn [Fixture.cursorOf] in Hloop. rewrite Hloop, Hlen.
      destruct fuel as [|[|[|fuel]]]; [lia | lia | lia |].
      reflexivity.
    + reflexivity.
    + reflexivity.
    + by rewrite length_fmap.
Qed.

Lemma C7_cursor_pagination_witness :
  exists log,
    GetOrgMembers (list Request) Fixture.pagedDo Fixture.noErrors
      (Fixture.pagedDecode 100 (Fixture.edgeOf <$> seq 0 250)) 5
      Fixture.someClient "llama-org" [] =
    Some (inr (memberOfEdge <$> (Fixture.edgeOf <$> seq 0 250)), log) /\
    log = [Fixture.pageRequest "llama-org" 0;
           Fixture.pageRequest "llama-org" 100;
           Fixture.pageRequest "llama-org" 200] /\
    length log = 3%nat /\
    length (memberOfEdge <$> (Fixture.edgeOf <$> seq 0 250)) = 250%nat.
Proof.
  apply (proj2 (proj2 (proj2 (proj2 (proj2 C7_cursor_pagination))))
           (Fixture.edgeOf <$> seq 0 250) "llama-org" 5%nat).
  - vm_compute. reflexivity.
  - lia.
Defined.

(** ** The CSV mode *)

(** C8: in CSV mode a run that fetched its members and created the file
    writes the header and one row per normalised member, in fetch order,
    whatever the dedupe keys and the email filter are: the number of rows
    under the header is the number of members. *)
Theorem C8_csv_one_row_per_member
    (World : Type) (ToLower : string -> string) (Format : Time -> string)
    (getOrgMembers : string -> World -> result (list OrgMember) * World)
    (osCreate : string -> World -> option error * World)
    (c : cli) (w w1 w2 : World) (members : list Member) :
  c_Output c = "csv" ->
  getMembers World ToLower getOrgMembers c w = (inr members, w1) ->
  osCreate "output.csv" w1 = (None, w2) ->
  forall dedupe email,
    exists rows,
      Run World ToLower Format getOrgMembers osCreate
          (withDedupeAndEmail c dedupe email) w =
        Some (inr (RenderCSV (csvHeader :: rows)), w2) /\
      rows = csvRow Format <$> members /\
      length rows = length members.
Proof.
  intros Hout Hfetch Hcreate dedupe email.
  exists (csvRow Format <$> members). split; [| split].
  - unfold Run.
    change (getMembers World ToLower getOrgMembers
              (withDedupeAndEmail c dedupe email) w)
      with (getMembers World ToLower getOrgMembers c w).
    rewrite Hfetch. cbn [c_Email c_Dedupe c_Output withDedupeAndEmail].
    destruct (BuildReport_spec members email) as (report & -> & _).
    destruct (dedupeFlags dedupe false false) as [dedupeEmail dedupeName].
    rewrite Hout.
    change (String.eqb "csv" "count") with false.
    change (String.eqb "csv" "json") with false.
    change (String.eqb "csv" "csv") with true.
    cbv iota. by rewrite Hcreate.
  - reflexivity.
  - apply length_fmap.
Qed.

Lemma C8_csv_one_row_per_member_witness :
  exists rows,
    Run (list string) Fixture.ToLowerASCII Fixture.FormatStub
        Fixture.twoOrgs Fixture.createOk
        (withDedupeAndEmail (Fixture.flags ["llama-org"; "llama-org"] [] "csv" "")
                            ["email"; "name"] "alpaca@llamas.com") [] =
      Some (inr (RenderCSV (csvHeader :: rows)), ["llama-org"; "llama-org"]) /\
    rows = csvRow Fixture.FormatStub <$>
             [Fixture.normSso; Fixture.normPlain;
              Fixture.normSso; Fixture.normPlain] /\
    length rows = 4%nat.
Proof.
  apply (C8_csv_one_row_per_member (list string) Fixture.ToLowerASCII
           Fixture.FormatStub Fixture.twoOrgs Fixture.createOk
           (Fixture.flags ["llama-org"; "llama-org"] [] "csv" "")
           [] ["llama-org"; "llama-org"] ["llama-org"; "llama-org"]
           [Fixture.normSso; Fixture.normPlain;
            Fixture.normSso; Fixture.normPlain]);
    reflexivity.
Defined.

(** * Further properties *)

(** ** More on the collapse of duplicates *)

Lemma collapseLoop_sublist (dedupeEmail dedupeName : bool)
    (report : list MemberWithDuplicates) (seenMembers : gmap string bool) :
  collapseLoop dedupeEmail dedupeName report seenMembers `sublist_of` report.
Proof.
  revert seenMembers. induction report as [|r report IH]; intros seen; simpl.
  - constructor.
  - destruct (seen !! ID (mwd_Member r)).
    + by apply sublist_cons.
    + by apply sublist_skip.
Qed.

Lemma collapseLoop_idemp (dedupeEmail dedupeName : bool)
    (report : list MemberWithDuplicates) (seenMembers : gmap string bool) :
  collapseLoop dedupeEmail dedupeName
    (collapseLoop dedupeEmail dedupeName report seenMembers) seenMembers =
  collapseLoop dedupeEmail dedupeName report seenMembers.
Proof.
  revert seenMembers. induction report as [|r report IH]; intros seen; [done |].
  destruct (seen !! ID (mwd_Member r)) as [b|] eqn:E.
  - rewrite (collapseLoop_skip _ _ r report seen) by eauto. apply IH.
  - rewrite (collapseLoop_keep _ _ r report seen) by done.
    rewrite collapseLoop_keep by done. f_equal. apply IH.
Qed.

(** An entry kept after another one was marked by none of the marks the
    earlier one left. *)
Lemma collapseLoop_later_unmarked (dedupeEmail dedupeName : bool)
    (report : list MemberWithDuplicates) (seenMembers : gmap string bool)
    (i j : nat) (ri rj : MemberWithDuplicates) :
  (i < j)%nat ->
  collapseLoop dedupeEmail dedupeName report seenMembers !! i = Some ri ->
  collapseLoop dedupeEmail dedupeName report seenMembers !! j = Some rj ->
  ID (mwd_Member rj) <> ID (mwd_Member ri) /\
  (dedupeEmail = true ->
   ID (mwd_Member rj) ∉ ID <$> EmailDuplicates ri) /\
  (dedupeName = true ->
   ID (mwd_Member rj) ∉ ID <$> NameDuplicates ri).
Proof.
  revert seenMembers i j.
  induction report as [|r report IH]; intros seen i j Hij; [done |].
  destruct (seen !! ID (mwd_Member r)) as [b|] eqn:E.
  - rewrite collapseLoop_skip by eauto. by apply IH.
  - rewrite collapseLoop_keep by done.
    destruct j as [|j]; [lia |]. destruct i as [|i].
    + intros [= <-]. simpl. intros Hj. apply list_elem_of_lookup_2 in Hj.
      destruct (collapseLoop_kept dedupeEmail dedupeName report
                  (seenAfter dedupeEmail dedupeName r seen)) as [_ Hall].
      destruct (Hall rj Hj) as [_ Hnone].
      pose proof (proj2 (seenAfter_lookup dedupeEmail dedupeName r seen
                           (ID (mwd_Member rj)))) as Hmark.
      rewrite Hnone in Hmark.
      assert (forall P : Prop, is_Some (@None bool) -> P) as Hnot
        by (intros P [x Hx]; done).
      split; [| split].
      * intros H. apply Hnot, Hmark. right. by left.
      * intros Hflag H. apply Hnot, Hmark. right. right. by left.
      * intros Hflag H. apply Hnot, Hmark. right. right. by right.
    + simpl. apply IH. lia.
Qed.

(** X1: the collapse only drops entries: what it returns is the report with
    some entries left out, in the same order and unchanged, so it is never
    longer than the report; and the first entry of a report is always
    kept. *)
Theorem X1_collapse_drops_entries_only
    (report : list MemberWithDuplicates) (dedupeEmail dedupeName : bool) :
  Collapse report dedupeEmail dedupeName `sublist_of` report /\
  (length (Collapse report dedupeEmail dedupeName) <= length report)%nat /\
  (forall r rest,
      exists kept,
        Collapse (r :: rest) dedupeEmail dedupeName = r :: kept).
Proof.
  assert (Collapse report dedupeEmail dedupeName `sublist_of` report) as Hsub.
  { unfold Collapse. destruct (dedupeEmail || dedupeName)%bool; [| done].
    apply collapseLoop_sublist. }
  split; [done |]. split; [by apply sublist_length |].
  intros r rest. unfold Collapse.
  destruct (dedupeEmail || dedupeName)%bool; [| by eexists].
  rewrite collapseLoop_keep by apply lookup_empty. by eexists.
Qed.

(** X2: collapsing a collapsed report with the same flags changes
    nothing. *)
Theorem X2_collapse_idempotent
    (report : list MemberWithDuplicates) (dedupeEmail dedupeName : bool) :
  Collapse (Collapse report dedupeEmail dedupeName) dedupeEmail dedupeName =
  Collapse report dedupeEmail dedupeName.
Proof.
  unfold Collapse. destruct (dedupeEmail || dedupeName)%bool; [| done].
  apply collapseLoop_idemp.
Qed.

Lemma reportEntry_rep_member (members : list Member) (email : string)
    (r : MemberWithDuplicates) :
  reportEntry members email = Some r ->
  mwd_Member r ∈ members /\
  (forall m, m ∈ mwd_Member r :: EmailDuplicates r <->
             m ∈ members /\ Email m = Email (mwd_Member r)) /\
  (forall m, m ∈ NameDuplicates r <->
             m ∈ members /\ Name m = Name (mwd_Member r) /\
             Email m <> Email (mwd_Member r)).
Proof.
  intros Hr. destruct (reportEntry_email _ _ _ Hr) as (He & Hfilter & Hname).
  assert (forall m, m ∈ mwd_Member r :: EmailDuplicates r <->
                    m ∈ members /\ Email m = Email (mwd_Member r)) as Hsame.
  { intros m. rewrite <- Hfilter, He. unfold filterMembersByEmail, filterMembers.
    rewrite !list_elem_of_In, filter_In, String.eqb_eq. done. }
  split; [| split; [done |]].
  - apply (Hsame (mwd_Member r)). by left.
  - intros m. rewrite Hname. unfold filterMembers.
    rewrite !list_elem_of_In, filter_In, andb_true_iff, negb_true_iff,
      String.eqb_eq, String.eqb_neq. done.
Qed.

Lemma Collapse_entries (members : list Member) (filterEmail : string)
    (report : list MemberWithDuplicates) (dedupeEmail dedupeName : bool)
    (i : nat) (r : MemberWithDuplicates) :
  BuildReport members filterEmail = Some report ->
  Collapse report dedupeEmail dedupeName !! i = Some r ->
  reportEntry members (Email (mwd_Member r)) = Some r.
Proof.
  intros Hb Hi. apply (BuildReport_entries _ _ _ _ Hb).
  eapply Collapse_subset, list_elem_of_lookup_2, Hi.
Qed.

Lemma collapse_by_name_lt (members : list Member) (filterEmail : string)
    (report : list MemberWithDuplicates) (dedupeEmail : bool)
    (i j : nat) (ri rj : MemberWithDuplicates) :
  BuildReport members filterEmail = Some report ->
  (i < j)%nat ->
  Collapse report dedupeEmail true !! i = Some ri ->
  Collapse report dedupeEmail true !! j = Some rj ->
  Name (mwd_Member ri) <> Name (mwd_Member rj).
Proof.
  intros Hb Hij Hi Hj Hname.
  pose proof (Collapse_entries _ _ _ _ _ _ _ Hb Hi) as Hri.
  pose proof (Collapse_entries _ _ _ _ _ _ _ Hb Hj) as Hrj.
  unfold Collapse in Hi, Hj. rewrite orb_true_r in Hi, Hj.
  destruct (collapseLoop_later_unmarked _ _ _ _ _ _ _ _ Hij Hi Hj)
    as (Hid & _ & Hmark).
  destruct (decide (Email (mwd_Member ri) = Email (mwd_Member rj))) as [He | He].
  - rewrite He in Hri. congruence.
  - apply (Hmark eq_refl), list_elem_of_fmap_2.
    destruct (reportEntry_rep_member _ _ _ Hri) as (_ & _ & Hnames).
    destruct (reportEntry_rep_member _ _ _ Hrj) as (Hin & _ & _).
    apply Hnames. split; [done |]. by split.
Qed.

(** X3: with the name key among the dedupe keys, no two entries of the
    collapsed report have representatives of the same name. *)
Theorem X3_collapse_by_name_distinct_names
    (members : list Member) (filterEmail : string) (dedupeEmail : bool)
    (report : list MemberWithDuplicates) :
  BuildReport members filterEmail = Some report ->
  (forall i j ri rj,
      Collapse report dedupeEmail true !! i = Some ri ->
      Collapse report dedupeEmail true !! j = Some rj ->
      Name (mwd_Member ri) = Name (mwd_Member rj) -> i = j) /\
  NoDup ((fun r => Name (mwd_Member r)) <$> Collapse report dedupeEmail true).
Proof.
  intros Hb.
  assert (forall i j ri rj,
      Collapse report dedupeEmail true !! i = Some ri ->
      Collapse report dedupeEmail true !! j = Some rj ->
      Name (mwd_Member ri) = Name (mwd_Member rj) -> i = j) as Hinj.
  { intros i j ri rj Hi Hj Hname.
    destruct (Nat.lt_total i j) as [Hlt | [Heq | Hgt]]; [| done |].
    - by destruct (collapse_by_name_lt _ _ _ _ _ _ _ _ Hb Hlt Hi Hj).
    - by destruct (collapse_by_name_lt _ _ _ _ _ _ _ _ Hb Hgt Hj Hi). }
  split; [done |]. apply NoDup_alt. intros i j name.
  rewrite !list_lookup_fmap. intros Hi Hj.
  destruct (Collapse report dedupeEmail true !! i) as [ri|] eqn:Hri; [| done].
  destruct (Collapse report dedupeEmail true !! j) as [rj|] eqn:Hrj; [| done].
  simpl in Hi, Hj. apply (Hinj i j ri rj); congruence.
Qed.

Lemma X3_collapse_by_name_distinct_names_witness :
  NoDup ((fun r => Name (mwd_Member r)) <$>
           Collapse [Fixture.entryA; Fixture.entryA; Fixture.entryB]
                    false true) /\
  Collapse [Fixture.entryA; Fixture.entryA; Fixture.entryB] false true =
    [Fixture.entryA].
Proof.
  split; [| reflexivity].
  apply (X3_collapse_by_name_distinct_names Fixture.llamas "" false
           [Fixture.entryA; Fixture.entryA; Fixture.entryB]).
  reflexivity.
Defined.

(** The collapse by email alone, on entries of a report, when an id stands
    for one email: the emails kept are the emails of the entries that were
    not covered before. *)
Lemma collapse_by_email_emails (members : list Member)
    (report : list MemberWithDuplicates) :
  (forall m1 m2, m1 ∈ members -> m2 ∈ members ->
                 ID m1 = ID m2 -> Email m1 = Email m2) ->
  Forall (fun r => reportEntry members (Email (mwd_Member r)) = Some r)
         report ->
  forall (seenMembers : gmap string bool) (covered : list string),
    (forall id, is_Some (seenMembers !! id) <->
                exists m, m ∈ members /\ ID m = id /\ Email m ∈ covered) ->
    forall email,
      email ∈ (fun r => Email (mwd_Member r)) <$>
                collapseLoop true false report seenMembers <->
      email ∈ (fun r => Email (mwd_Member r)) <$> report /\ email ∉ covered.
Proof.
  intros Hid Hentries.
  induction Hentries as [|r report Hr Hrest IH]; intros seen covered Hinv email.
  - simpl. rewrite elem_of_nil. tauto.
  - destruct (reportEntry_rep_member _ _ _ Hr) as (Hrep & Hsame & _).
    destruct (decide (Email (mwd_Member r) ∈ covered)) as [Hcov | Hcov].
    + rewrite collapseLoop_skip by (apply Hinv; eauto).
      rewrite (IH seen covered Hinv), fmap_cons, elem_of_cons. simpl.
      split; [tauto |]. intros [[-> | H] Hno]; [done | tauto].
    + assert (seen !! ID (mwd_Member r) = None) as Hnone.
      { destruct (seen !! ID (mwd_Member r)) as [b|] eqn:E; [| done].
        assert (is_Some (seen !! ID (mwd_Member r))) as Hs by eauto.
        apply Hinv in Hs as (m & Hm & Hmid & Hmcov).
        by rewrite (Hid m (mwd_Member r) Hm Hrep Hmid) in Hmcov. }
      rewrite collapseLoop_keep by done.
      rewrite !fmap_cons, !elem_of_cons. simpl.
      rewrite (IH (seenAfter true false r seen)
                  (Email (mwd_Member r) :: covered)).
      * rewrite elem_of_cons.
        destruct (decide (email = Email (mwd_Member r))) as [-> | Hne]; tauto.
      * intros id. rewrite seenAfter_lookup, Hinv. split.
        -- intros [(m & Hm & Hmid & Hmcov) | [-> | [[_ Hdup] | [? _]]]];
             [| | | done].
           ++ exists m. rewrite elem_of_cons. tauto.
           ++ exists (mwd_Member r). rewrite elem_of_cons. tauto.
           ++ apply list_elem_of_fmap in Hdup as (d & -> & Hd).
              assert (d ∈ mwd_Member r :: EmailDuplicates r) as Hd'
                by (by right).
              apply Hsame in Hd' as [Hdm Hde].
              exists d. rewrite elem_of_cons. tauto.
        -- intros (m & Hm & Hmid & Hmcov).
           apply elem_of_cons in Hmcov as [Hme | Hmcov]; [| left; eauto].
           assert (m ∈ mwd_Member r :: EmailDuplicates r) as Hm'
             by (by apply Hsame).
           apply elem_of_cons in Hm' as [-> | Hm']; [by right; left |].
           right. right. left. split; [done |].
           rewrite <- Hmid. by apply list_elem_of_fmap_2.
Qed.

Lemma length_filter_Permutation {A : Type} (f : A -> bool) (l k : list A) :
  l ≡ₚ k -> length (List.filter f l) = length (List.filter f k).
Proof.
  induction 1 as [|x l k _ IH|x y l|l k1 k2 _ IH1 _ IH2]; simpl.
  - done.
  - destruct (f x); simpl; by rewrite IH.
  - by destruct (f x), (f y).
  - by rewrite IH1.
Qed.

Lemma BuildReport_emails (members : list Member) (filterEmail : string)
    (report : list MemberWithDuplicates) :
  BuildReport members filterEmail = Some report ->
  (fun r => Email (mwd_Member r)) <$> report =
  keptEmails filterEmail (sort_Strings (memberEmails members)).
Proof.
  intros Hb.
  destruct (BuildReport_spec members filterEmail) as (report' & Hb' & Hall).
  assert (report' = report) as -> by congruence.
  by apply reportEntries_emails in Hall.
Qed.

(** X4: when the members that share an id also share the email, the
    collapse by email alone keeps exactly one entry for each email of the
    report, so without an email filter the collapsed report has one entry
    for each distinct member email, and as many entries as there are
    distinct emails. *)
Theorem X4_collapse_by_email_one_entry_per_email
    (members : list Member) (filterEmail : string)
    (report : list MemberWithDuplicates) :
  BuildReport members filterEmail = Some report ->
  (forall m1 m2, m1 ∈ members -> m2 ∈ members ->
                 ID m1 = ID m2 -> Email m1 = Email m2) ->
  (forall email,
      email ∈ (fun r => Email (mwd_Member r)) <$> Collapse report true false <->
      email ∈ (fun r => Email (mwd_Member r)) <$> report) /\
  NoDup ((fun r => Email (mwd_Member r)) <$> Collapse report true false) /\
  (filterEmail = "" ->
   (forall email,
       email ∈ (fun r => Email (mwd_Member r)) <$> Collapse report true false
       <-> email ∈ memberEmails members) /\
   length (Collapse report true false) =
     length (remove_dups (memberEmails members))).
Proof.
  intros Hb Hid.
  assert (forall email,
      email ∈ (fun r => Email (mwd_Member r)) <$> Collapse report true false <->
      email ∈ (fun r => Email (mwd_Member r)) <$> report) as Hsame.
  { intros email. unfold Collapse. simpl.
    rewrite (collapse_by_email_emails members report Hid) with (covered := []).
    - rewrite elem_of_nil. tauto.
    - apply Forall_forall. intros r Hr. by apply (BuildReport_entries _ _ _ _ Hb).
    - intros id. rewrite lookup_empty. split; [by intros [? ?] |].
      intros (m & _ & _ & H). by apply elem_of_nil in H. }
  assert (NoDup ((fun r => Email (mwd_Member r)) <$> Collapse report true false))
    as Hnd.
  { apply NoDup_alt. intros i j email. rewrite !list_lookup_fmap. intros Hi Hj.
    destruct (Collapse report true false !! i) as [ri|] eqn:Hri; [| done].
    destruct (Collapse report true false !! j) as [rj|] eqn:Hrj; [| done].
    simpl in Hi, Hj.
    pose proof (Collapse_entries _ _ _ _ _ _ _ Hb Hri) as Hei.
    pose proof (Collapse_entries _ _ _ _ _ _ _ Hb Hrj) as Hej.
    apply (Collapse_ids_inj report true false i j ri rj); [done | done | done |].
    assert (ri = rj) as -> by congruence. done. }
  split; [done |]. split; [done |].
  intros ->.
  assert (forall email,
      email ∈ (fun r => Email (mwd_Member r)) <$> Collapse report true false
      <-> email ∈ memberEmails members) as Hall.
  { intros email. rewrite Hsame, (BuildReport_emails _ _ _ Hb).
    by rewrite keptEmails_no_filter, sort_Strings_Permutation. }
  split; [done |].
  rewrite <- (length_fmap (fun r => Email (mwd_Member r))).
  apply Permutation_length, NoDup_Permutation; [done | apply NoDup_remove_dups |].
  intros email. by rewrite Hall, elem_of_remove_dups.
Qed.

Lemma X4_collapse_by_email_one_entry_per_email_witness :
  NoDup ((fun r => Email (mwd_Member r)) <$>
           Collapse [Fixture.entryA; Fixture.entryA; Fixture.entryB]
                    true false) /\
  length (Collapse [Fixture.entryA; Fixture.entryA; Fixture.entryB]
                   true false) = 2%nat.
Proof.
  assert (forall m1 m2, m1 ∈ Fixture.llamas -> m2 ∈ Fixture.llamas ->
                        ID m1 = ID m2 -> Email m1 = Email m2) as Hid.
  { intros m1 m2 H1 H2.
    apply list_elem_of_In in H1, H2. simpl in H1, H2.
    destruct H1 as [<- | [<- | [<- | []]]];
      destruct H2 as [<- | [<- | [<- | []]]];
      intros H; try reflexivity; discriminate H. }
  destruct (X4_collapse_by_email_one_entry_per_email Fixture.llamas ""
              [Fixture.entryA; Fixture.entryA; Fixture.entryB]
              eq_refl Hid) as (_ & Hnd & Hlen).
  split; [exact Hnd |]. exact (proj2 (Hlen eq_refl)).
Defined.

(** ** The whole run *)

Lemma dedupeFlags_spec (dedupe : list string) (dedupeEmail dedupeName : bool) :
  dedupeFlags dedupe dedupeEmail dedupeName =
  ((dedupeEmail || bool_decide ("email" ∈ dedupe))%bool,
   (dedupeName || bool_decide ("name" ∈ dedupe))%bool).
Proof.
  revert dedupeEmail dedupeName.
  induction dedupe as [|d dedupe IH]; intros e n; simpl.
  - by rewrite !orb_false_r.
  - destruct (String.eqb_spec d "email") as [-> | Hne].
    + rewrite IH. f_equal.
      * rewrite (bool_decide_eq_true_2 ("email" ∈ "email" :: dedupe))
          by (by left). by rewrite orb_true_r.
      * f_equal. apply bool_decide_ext. rewrite elem_of_cons.
        split; [tauto |]. by intros [? | ?].
    + destruct (String.eqb_spec d "name") as [-> | Hne'].
      * rewrite IH. f_equal.
        -- f_equal. apply bool_decide_ext. rewrite elem_of_cons.
           split; [tauto |]. by intros [? | ?].
        -- rewrite (bool_decide_eq_true_2 ("name" ∈ "name" :: dedupe))
             by (by left). by rewrite orb_true_r.
      * rewrite IH. f_equal; f_equal; apply bool_decide_ext;
          rewrite elem_of_cons; split; try tauto; by intros [? | ?].
Qed.

(** X5: the two dedupe flags say whether the keys email and name occur
    among the values of the dedupe option: order and repetition of the
    values do not matter and any other value is ignored. *)
Theorem X5_dedupe_flags_are_membership (dedupe : list string) :
  dedupeFlags dedupe false false =
    (bool_decide ("email" ∈ dedupe), bool_decide ("name" ∈ dedupe)) /\
  (forall dedupe',
      dedupe ≡ₚ dedupe' ->
      dedupeFlags dedupe' false false = dedupeFlags dedupe false false) /\
  (forall other,
      other <> "email" -> other <> "name" ->
      dedupeFlags (other :: dedupe) false false =
      dedupeFlags dedupe false false).
Proof.
  split; [by rewrite dedupeFlags_spec | split].
  - intros dedupe' Hp. rewrite !dedupeFlags_spec. simpl.
    f_equal; apply bool_decide_ext; by rewrite Hp.
  - intros other H1 H2. rewrite !dedupeFlags_spec. simpl.
    f_equal; apply bool_decide_ext; rewrite elem_of_cons;
      split; try tauto; by intros [? | ?].
Qed.

Lemma X5_dedupe_flags_are_membership_witness :
  dedupeFlags ["name"; "email"; "name"] false false =
    dedupeFlags ["email"; "name"; "name"] false false /\
  dedupeFlags ["domain"; "email"] false false =
    dedupeFlags ["email"] false false.
Proof.
  destruct (X5_dedupe_flags_are_membership ["email"; "name"; "name"])
    as (_ & Hperm & _).
  destruct (X5_dedupe_flags_are_membership ["email"]) as (_ & _ & Hother).
  split.
  - apply Hperm. apply Permutation_swap.
  - apply Hother; discriminate.
Defined.

Lemma length_filter_emails (members : list Member) (email : string) :
  length (List.filter (fun e => String.eqb email e) (memberEmails members)) =
  length (filterMembersByEmail members email).
Proof.
  unfold memberEmails, filterMembersByEmail, filterMembers.
  induction members as [|m members IH]; csimpl; [done |].
  rewrite (String.eqb_sym email (Email m)).
  destruct (String.eqb (Email m) email); simpl; by rewrite IH.
Qed.

Lemma keptEmails_with_filter (filterEmail : string) (emails : list string) :
  filterEmail <> "" ->
  keptEmails filterEmail emails =
  List.filter (fun e => String.eqb filterEmail e) emails.
Proof.
  intros Hne. apply String.eqb_neq in Hne. unfold keptEmails.
  induction emails as [|e emails IH]; simpl; [done |].
  rewrite Hne. simpl. rewrite negb_involutive.
  destruct (String.eqb filterEmail e); simpl; by rewrite <- IH, ?Hne.
Qed.

(** The number of entries of the report. *)
Lemma BuildReport_length (members : list Member) (filterEmail : string)
    (report : list MemberWithDuplicates) :
  BuildReport members filterEmail = Some report ->
  length report =
    if String.eqb filterEmail "" then length members
    else length (filterMembersByEmail members filterEmail).
Proof.
  intros Hb.
  rewrite <- (length_fmap (fun r => Email (mwd_Member r)) report).
  rewrite (BuildReport_emails _ _ _ Hb).
  destruct (String.eqb_spec filterEmail "") as [-> | Hne].
  - rewrite keptEmails_no_filter, (sort_Strings_Permutation _).
    apply length_fmap.
  - rewrite keptEmails_with_filter by done.
    rewrite (length_filter_Permutation _ _ (memberEmails members))
      by apply sort_Strings_Permutation.
    apply length_filter_emails.
Qed.

Section RunFacts.

Variable World : Type.
Variable ToLower : string -> string.
Variable Format : Time -> string.
Variable getOrgMembers : string -> World -> result (list OrgMember) * World.
Variable osCreate : string -> World -> option error * World.

(** X6: a run never panics (the index into the members with a given email
    is always in range), and it returns an error in two cases only: the
    fetch of the members failed, with that error, or the output is csv and
    the file could not be created. *)
Theorem X6_run_never_panics_errors (c : cli) (w : World) :
  exists outcome w',
    Run World ToLower Format getOrgMembers osCreate c w = Some (outcome, w') /\
    forall err,
      outcome = inl err <->
      fst (getMembers World ToLower getOrgMembers c w) = inl err \/
      (exists members,
          fst (getMembers World ToLower getOrgMembers c w) = inr members /\
          c_Output c = "csv" /\
          fst (osCreate "output.csv"
                 (snd (getMembers World ToLower getOrgMembers c w))) =
            Some err).
Proof.
  unfold Run.
  destruct (getMembers World ToLower getOrgMembers c w)
    as [[err0 | members] w1] eqn:Hfetch; simpl.
  - exists (inl err0), w1. split; [done |]. intros err. split.
    + intros [= ->]. by left.
    + intros [[= ->] | (? & [=] & _)]. done.
  - destruct (BuildReport_spec members (c_Email c)) as (report & -> & _).
    destruct (dedupeFlags (c_Dedupe c) false false) as [de dn].
    destruct (String.eqb_spec (c_Output c) "count") as [Hc | Hc].
    { eexists _, _. split; [done |]. intros err. split; [done |].
      intros [[=] | (? & _ & Hcsv & _)]. by rewrite Hc in Hcsv. }
    destruct (String.eqb_spec (c_Output c) "json") as [Hj | Hj].
    { eexists _, _. split; [done |]. intros err. split; [done |].
      intros [[=] | (? & _ & Hcsv & _)]. by rewrite Hj in Hcsv. }
    destruct (String.eqb_spec (c_Output c) "csv") as [Hv | Hv].
    + destruct (osCreate "output.csv" w1) as [[err1 |] w2] eqn:Hcreate.
      * exists (inl err1), w2. split; [done |]. intros err. simpl. split.
        -- intros [= ->]. right. by exists members.
        -- intros [[=] | (? & _ & _ & [= ->])]. done.
      * eexists _, _. split; [done |]. intros err. simpl. split; [done |].
        intros [[=] | (? & _ & _ & [=])].
    + eexists _, _. split; [done |]. intros err. split; [done |].
      intros [[=] | (? & _ & Hcsv & _)]. done.
Qed.

(** X7: without dedupe keys, the count output is the number of members when
    no email filter is set, and the number of members with the filter's
    email when one is set (zero when no member has it). *)
Theorem X7_count_without_dedupe (c : cli) (w w' : World)
    (members : list Member) :
  getMembers World ToLower getOrgMembers c w = (inr members, w') ->
  c_Output c = "count" ->
  "email" ∉ c_Dedupe c -> "name" ∉ c_Dedupe c ->
  Run World ToLower Format getOrgMembers osCreate c w =
    Some (inr (RenderCount
                 (if String.eqb (c_Email c) "" then length members
                  else length (filterMembersByEmail members (c_Email c)))),
          w').
Proof.
  intros Hfetch Hout He Hn. unfold Run. rewrite Hfetch.
  destruct (BuildReport_spec members (c_Email c)) as (report & Hb & _).
  rewrite Hb, dedupeFlags_spec. simpl.
  rewrite !bool_decide_eq_false_2 by done.
  rewrite Hout. simpl. unfold Collapse. simpl.
  by rewrite (BuildReport_length _ _ _ Hb).
Qed.

End RunFacts.

Lemma X7_count_without_dedupe_witness :
  Run (list string) Fixture.ToLowerASCII Fixture.FormatStub Fixture.twoOrgs
      Fixture.createOk
      (Fixture.flags ["llama-org"; "llama-org"] [] "count" "alpaca@llamas.com")
      [] =
    Some (inr (RenderCount 2), ["llama-org"; "llama-org"]) /\
  Run (list string) Fixture.ToLowerASCII Fixture.FormatStub Fixture.twoOrgs
      Fixture.createOk
      (Fixture.flags ["llama-org"; "llama-org"] [] "count" "nobody@llamas.com")
      [] =
    Some (inr (RenderCount 0), ["llama-org"; "llama-org"]).
Proof.
  split.
  - apply (X7_count_without_dedupe (list string) Fixture.ToLowerASCII
             Fixture.FormatStub Fixture.twoOrgs Fixture.createOk
             (Fixture.flags ["llama-org"; "llama-org"] [] "count"
                "alpaca@llamas.com")
             [] ["llama-org"; "llama-org"]
             [Fixture.normSso; Fixture.normPlain;
              Fixture.normSso; Fixture.normPlain]);
      [reflexivity | reflexivity | apply not_elem_of_nil | apply not_elem_of_nil].
  - apply (X7_count_without_dedupe (list string) Fixture.ToLowerASCII
             Fixture.FormatStub Fixture.twoOrgs Fixture.createOk
             (Fixture.flags ["llama-org"; "llama-org"] [] "count"
                "nobody@llamas.com")
             [] ["llama-org"; "llama-org"]
             [Fixture.normSso; Fixture.normPlain;
              Fixture.normSso; Fixture.normPlain]);
      [reflexivity | reflexivity | apply not_elem_of_nil | apply not_elem_of_nil].
Defined.

(** ** More on the client *)

Section PageFacts.

Variable World : Type.
Variable httpDo : Request -> World -> result HTTPResponse * World.
Variable unmarshalErrors : string -> list string.
Variable decodePage : string -> result membersPage.

Local Abbreviation page :=
  (getOrgMembersPage World httpDo unmarshalErrors decodePage).

Local Abbreviation fetchLoop :=
  (GetOrgMembers_loop World httpDo unmarshalErrors decodePage).

(** X8: what a page request comes to, case by case.  A failed round trip,
    an unreadable body, an error envelope with messages and a status other
    than 200 each fail under the message prefix of the page request; a body
    that does not decode fails with the decoding error; in every other case
    the page has one member per edge, in order, and the cursor to go on
    with. *)
Theorem X8_page_request_outcomes (c : Client) (orgSlug after : string)
    (w w' : World) :
  let req := {| req_Header := header c;
                req_Query := TrimSpace orgMembersQuery;
                req_Variables := [("orgSlug", orgSlug); ("after", after)] |} in
  (forall err,
      httpDo req w = (inl err, w') ->
      page c orgSlug after w =
        (inl (ErrWrap "failed to get authorizations"
                (ErrWrap "request failed" err)), w')) /\
  (forall r,
      httpDo req w = (inr r, w') ->
      (forall err,
          Body r = inl err ->
          page c orgSlug after w =
            (inl (ErrWrap "failed to get authorizations"
                    (ErrWrap "failed to read body" err)), w')) /\
      (forall data,
          Body r = inr data ->
          (unmarshalErrors data <> [] ->
           page c orgSlug after w =
             (inl (ErrWrap "failed to get authorizations"
                     (ErrResponse (unmarshalErrors data))), w')) /\
          (unmarshalErrors data = [] -> StatusCode r <> StatusOK ->
           page c orgSlug after w =
             (inl (ErrWrap "failed to get authorizations"
                     (ErrStatus (Status r))), w') /\
           Error (ErrWrap "failed to get authorizations"
                    (ErrStatus (Status r))) =
             "failed to get authorizations: response returned status "
             ++ Status r) /\
          (unmarshalErrors data = [] -> StatusCode r = StatusOK ->
           (forall err,
               decodePage data = inl err ->
               page c orgSlug after w =
                 (inl (ErrWrap "error decoding response" err), w')) /\
           (forall p,
               decodePage data = inr p ->
               page c orgSlug after w =
                 (inr (memberOfEdge <$> Edges p, nextCursor (PageInfo p)), w')
               /\ length (memberOfEdge <$> Edges p) = length (Edges p))))).
Proof.
  intros req. unfold getOrgMembersPage, Do. fold req. split.
  - intros err ->. done.
  - intros r ->. unfold checkResponseForErrors. split.
    + intros err ->. done.
    + intros data ->. split; [| split].
      * intros Hne. by destruct (unmarshalErrors data).
      * intros -> Hstatus. simpl. apply Z.eqb_neq in Hstatus.
        rewrite Hstatus. done.
      * intros -> Hstatus. simpl. apply Z.eqb_eq in Hstatus.
        rewrite Hstatus. simpl. unfold DecodeInto. simpl. split.
        -- intros err ->. done.
        -- intros p ->. split; [done | apply length_fmap].
Qed.




(** X10: the fetch loop has no bound of its own: against a server whose
    every page succeeds and hands out a cursor that is not empty, it never
    returns, whatever the fuel. *)
Theorem X10_fetch_never_ends_on_endless_cursor (c : Client)
    (orgSlug : string) :
  (forall after w,
      exists members nextAfter w',
        page c orgSlug after w = (inr (members, nextAfter), w') /\
        nextAfter <> "") ->
  forall fuel w,
    GetOrgMembers World httpDo unmarshalErrors decodePage fuel c orgSlug w =
      None.
Proof.
  intros Hpage fuel. unfold GetOrgMembers. generalize (@nil OrgMember).
  generalize "". induction fuel as [|fuel IH]; intros after acc w; [done |].
  cbn [GetOrgMembers_loop].
  destruct (Hpage after w) as (members & next & w' & -> & Hne).
  apply String.eqb_neq in Hne. rewrite Hne. apply IH.
Qed.

End PageFacts.

Lemma X8_page_request_outcomes_witness :
  getOrgMembersPage unit
    (Fixture.answer {| StatusCode := 502; Status := "502 Bad Gateway";
                       Body := inr "<html>" |})
    Fixture.envelopeStub Scenario.onePageDecode Fixture.someClient
    "llama-org" "" tt =
    (inl (ErrWrap "failed to get authorizations"
            (ErrStatus "502 Bad Gateway")), tt) /\
  Error (ErrWrap "failed to get authorizations"
           (ErrStatus "502 Bad Gateway")) =
    "failed to get authorizations: response returned status 502 Bad Gateway".
Proof.
  pose proof (X8_page_request_outcomes unit
                (Fixture.answer {| StatusCode := 502;
                                   Status := "502 Bad Gateway";
                                   Body := inr "<html>" |})
                Fixture.envelopeStub Scenario.onePageDecode
                Fixture.someClient "llama-org" "" tt tt) as [_ Hresp].
  destruct (Hresp _ eq_refl) as [_ Hbody].
  destruct (Hbody "<html>" eq_refl) as (_ & Hstatus & _).
  apply Hstatus; [reflexivity | discriminate].
Defined.


Lemma X10_fetch_never_ends_on_endless_cursor_witness :
  GetOrgMembers (list Request) Fixture.pagedDo Fixture.noErrors
    Scenario.endlessDecode 1000 Fixture.someClient "llama-org" [] = None.
Proof.
  apply (X10_fetch_never_ends_on_endless_cursor (list Request) Fixture.pagedDo
           Fixture.noErrors Scenario.endlessDecode Fixture.someClient
           "llama-org").
  intros after w.
  exists [], "again",
    (w ++ [{| req_Header := header Fixture.someClient;
              req_Query := TrimSpace orgMembersQuery;
              req_Variables := [("orgSlug", "llama-org"); ("after", after)] |}])%list.
  split; [reflexivity | discriminate].
Defined.

Lemma pageOffsets_spec (pageSize n : nat) :
  (0 < pageSize)%nat ->
  forall fuel offset : nat,
    (0 < fuel)%nat -> (n <= offset + fuel * pageSize)%nat ->
    exists pages : nat,
      (0 < pages)%nat /\
      Fixture.pageOffsets pageSize n fuel offset =
        (fun i => (offset + i * pageSize)%nat) <$> seq 0 pages /\
      (n <= offset + pages * pageSize)%nat /\
      (pages = 1%nat \/ (offset + (pages - 1) * pageSize < n)%nat).
Proof.
  intros Hsize fuel.
  induction fuel as [|fuel IH]; intros offset Hfuel Hn; [lia |].
  cbn [Fixture.pageOffsets].
  destruct (Nat.ltb (offset + pageSize) n) eqn:E.
  - apply Nat.ltb_lt in E.
    destruct (IH (offset + pageSize)%nat) as (pages & Hpos & Heq & Hle & Hlast);
      [nia | nia |].
    exists (S pages). split; [lia |]. split; [| split; [nia |]].
    + rewrite Heq. cbn [seq]. rewrite fmap_cons, <- fmap_S_seq, <- list_fmap_compose.
      f_equal; [lia |]. apply list_fmap_ext. intros i x _. simpl. lia.
    + right. destruct Hlast as [-> | Hlast]; [simpl; lia |].
      replace (S pages - 1)%nat with (S (pages - 1)) by lia. nia.
  - apply Nat.ltb_ge in E. exists 1%nat.
    split; [lia |]. split; [| split; [lia | by left]].
    simpl. f_equal. lia.
Qed.

(** X11: against a server that hands out the members of an organization in
    pages of any one size, the fetch returns all members in the order of the
    server and sends one request per page, from offset zero upwards: the
    number of requests is the number of members divided by the page size,
    rounded up, and one for an organization without members. *)
Theorem X11_paged_fetch_returns_all (pageSize : nat) (all : list memberNode)
    (orgSlug : string) (fuel : nat) :
  (0 < pageSize)%nat -> (0 < fuel)%nat ->
  (length all <= fuel * pageSize)%nat ->
  exists pages : nat,
    GetOrgMembers (list Request) Fixture.pagedDo Fixture.noErrors
      (Fixture.pagedDecode pageSize all) fuel Fixture.someClient orgSlug [] =
    Some (inr (memberOfEdge <$> all),
          Fixture.pageRequest orgSlug <$>
            ((fun i => (i * pageSize)%nat) <$> seq 0 pages)) /\
    (0 < pages)%nat /\
    (length all <= pages * pageSize)%nat /\
    (pages = 1%nat \/ ((pages - 1) * pageSize < length all)%nat).
Proof.
  intros Hsize Hfuel Hlen.
  destruct (pageOffsets_spec pageSize (length all) Hsize fuel 0 Hfuel)
    as (pages & Hpos & Heq & Hle & Hlast); [lia |].
  exists pages. split; [| split; [done | split; [lia | lia]]].
  unfold GetOrgMembers.
  pose proof (paged_loop pageSize all orgSlug Hsize fuel 0 [] [] Hfuel
                ltac:(lia)) as Hloop.
  cbn [Fixture.cursorOf] in Hloop. rewrite Hloop, Heq. simpl.
  do 3 f_equal.
Qed.

Lemma X11_paged_fetch_returns_all_witness :
  exists pages : nat,
    GetOrgMembers (list Request) Fixture.pagedDo Fixture.noErrors
      (Fixture.pagedDecode 2 (Fixture.edgeOf <$> seq 0 5)) 10
      Fixture.someClient "llama-org" [] =
    Some (inr (memberOfEdge <$> (Fixture.edgeOf <$> seq 0 5)),
          Fixture.pageRequest "llama-org" <$>
            ((fun i => (i * 2)%nat) <$> seq 0 pages)) /\
    (0 < pages)%nat /\
    (length (Fixture.edgeOf <$> seq 0 5) <= pages * 2)%nat /\
    (pages = 1%nat \/
     ((pages - 1) * 2 < length (Fixture.edgeOf <$> seq 0 5))%nat).
Proof.
  apply (X11_paged_fetch_returns_all 2 (Fixture.edgeOf <$> seq 0 5)
           "llama-org" 10).
  - lia.
  - lia.
  - simpl. lia.
Defined.

(** ** More on the fetch of all organizations *)

Lemma normalize_Org (ToLower : string -> string) (orgMember : OrgMember)
    (orgSlug : string) (m : Member) :
  normalize ToLower orgMember orgSlug = inr m -> Org m = orgSlug.
Proof.
  rewrite normalize_unfold.
  destruct (getEmailDomain _) as [err | d]; [done |]. by intros [= <-].
Qed.

Section FetchAllFacts.

Variable World : Type.
Variable ToLower : string -> string.
Variable getOrgMembers : string -> World -> result (list OrgMember) * World.

Local Abbreviation fetchAll := (getMembersLoop World ToLower getOrgMembers).

Lemma getMembersLoop_records (orgSlugs : list string) (acc res : list Member)
    (w w' : World) :
  fetchAll orgSlugs acc w = (inr res, w') ->
  exists ms,
    res = (acc ++ ms)%list /\
    Forall2 (fun record m => normalize ToLower record.1 record.2 = inr m)
            (fetchedRecords getOrgMembers orgSlugs w) ms.
Proof.
  revert acc w. induction orgSlugs as [|s orgSlugs IH]; intros acc w; simpl.
  - intros [= <- _]. exists []. by rewrite app_nil_r.
  - destruct (getOrgMembers s w) as [[err | members] w1]; [done |].
    pose proof (normalizeAll_spec ToLower members s acc) as Hn.
    destruct (firstInvalid members) as [email|]; [by rewrite Hn |].
    destruct Hn as (ms & -> & Hall). intros Hloop.
    destruct (IH _ _ Hloop) as (ms' & -> & Hall').
    exists (ms ++ ms')%list. rewrite app_assoc. split; [done |].
    apply Forall2_app; [| done]. by apply Forall2_fmap_l.
Qed.

(** X12: a successful fetch of all organizations returns one member per
    fetched record, in the order of the organizations and, within one, of
    the records: each member is the normalisation of its record under the
    slug of its organization; for no organizations nothing is fetched.  A
    fetch that fails for one organization is the result of the whole call,
    and the organizations after it are not fetched. *)
Theorem X12_fetch_all_in_order (c : cli) (w : World) :
  (forall members w',
      getMembers World ToLower getOrgMembers c w = (inr members, w') ->
      Forall2 (fun record m => normalize ToLower record.1 record.2 = inr m)
              (fetchedRecords getOrgMembers (c_OrgSlugs c) w) members /\
      length members =
        length (fetchedRecords getOrgMembers (c_OrgSlugs c) w) /\
      Org <$> members =
        snd <$> fetchedRecords getOrgMembers (c_OrgSlugs c) w) /\
  (c_OrgSlugs c = [] ->
   getMembers World ToLower getOrgMembers c w = (inr [], w)) /\
  (forall pre orgSlug post acc1 w1 err w2,
      c_OrgSlugs c = (pre ++ orgSlug :: post)%list ->
      fetchAll pre [] w = (inr acc1, w1) ->
      getOrgMembers orgSlug w1 = (inl err, w2) ->
      getMembers World ToLower getOrgMembers c w = (inl err, w2)).
Proof.
  split; [| split].
  - intros members w' Hfetch.
    destruct (getMembersLoop_records _ _ _ _ _ Hfetch) as (ms & -> & Hall).
    simpl. split; [done |]. split.
    + symmetry. by eapply Forall2_length.
    + clear Hfetch. induction Hall as [|[om s] m raw ms Hm Hall IH]; [done |].
      csimpl. rewrite IH. f_equal. simpl in Hm.
      by apply normalize_Org in Hm.
  - intros Hnil. unfold getMembers. by rewrite Hnil.
  - intros pre orgSlug post acc1 w1 err w2 Hslugs Hpre Hfail.
    unfold getMembers. rewrite Hslugs, getMembersLoop_app, Hpre. simpl.
    by rewrite Hfail.
Qed.

End FetchAllFacts.

Lemma X12_fetch_all_in_order_witness :
  Org <$> [Fixture.normSso; Fixture.normPlain;
           Fixture.normSso; Fixture.normPlain] =
    snd <$> fetchedRecords Fixture.twoOrgs ["llama-org"; "llama-org"] [] /\
  getMembers (list string) Fixture.ToLowerASCII Fixture.twoOrgs
    (Fixture.flags ["llama-org"; "no-org"; "llama-org"] [] "json" "") [] =
    (inl (ErrOpaque "no such organization"), ["llama-org"; "no-org"]).
Proof.
  split.
  - destruct (X12_fetch_all_in_order (list string) Fixture.ToLowerASCII
                Fixture.twoOrgs
                (Fixture.flags ["llama-org"; "llama-org"] [] "json" "") [])
      as (Hok & _ & _).
    destruct (Hok [Fixture.normSso; Fixture.normPlain;
                   Fixture.normSso; Fixture.normPlain]
                  ["llama-org"; "llama-org"] eq_refl) as (_ & _ & Horg).
    exact Horg.
  - destruct (X12_fetch_all_in_order (list string) Fixture.ToLowerASCII
                Fixture.twoOrgs
                (Fixture.flags ["llama-org"; "no-org"; "llama-org"] [] "json" "")
                [])
      as (_ & _ & Hfail).
    apply (Hfail ["llama-org"] "no-org" ["llama-org"]
                 [Fixture.normSso; Fixture.normPlain] ["llama-org"]);
      reflexivity.
Defined.

(** ** More on the email domain *)

(** X13: [getEmailDomain] returns a domain exactly for the emails that
    split into a prefix, an at sign and a domain free of at signs, and that
    domain is the result, also when it is empty (an email that ends in an
    at sign has the empty domain, without error); it fails exactly on the
    emails without an at sign, with the error that carries the email. *)
Theorem X13_email_domain_characterised (email : string) :
  (forall domain,
      getEmailDomain email = inr domain <->
      exists pre, email = pre ++ String at_sign domain /\
                  contains_byte domain at_sign = false) /\
  (forall err,
      getEmailDomain email = inl err <->
      contains_byte email at_sign = false /\ err = ErrInvalidEmail email) /\
  (forall pre, getEmailDomain (pre ++ "@") = inr "") /\
  (forall pre domain,
      contains_byte domain at_sign = false ->
      getEmailDomain (pre ++ "@" ++ domain) = inr domain).
Proof.
  split; [| split; [| split]].
  - intros domain. apply getEmailDomain_ok.
  - intros err.
    destruct (getEmailDomain_cases email) as [[Hc [d Hd]] | [Hc He]].
    + rewrite Hd, Hc. split; [done | by intros [? _]].
    + rewrite He, Hc. split; [by intros [= <-] | by intros [_ ->]].
  - intros pre. apply getEmailDomain_ok. by exists pre.
  - intros pre domain Hd. apply getEmailDomain_ok. by exists pre.
Qed.

Lemma X13_email_domain_characterised_witness :
  getEmailDomain ("llama@sso" ++ "@" ++ "llamas.com") = inr "llamas.com" /\
  getEmailDomain ("llama" ++ "@") = inr "".
Proof.
  destruct (X13_email_domain_characterised "") as (_ & _ & Hend & Hsplit).
  split.
  - apply (Hsplit "llama@sso" "llamas.com"). reflexivity.
  - apply (Hend "llama").
Defined.

(** ** More on the duplicate report *)

(** X14: in every entry of the report the email duplicates all carry the
    representative's email and the name duplicates all carry its name and
    another email, so no member is in both lists; every member with the
    representative's name or email is the representative or in one of the
    two lists; and being a name duplicate is mutual between the
    representatives of two entries. *)
Theorem X14_duplicate_lists_of_entries
    (members : list Member) (filterEmail : string)
    (report : list MemberWithDuplicates) :
  BuildReport members filterEmail = Some report ->
  (forall r, r ∈ report ->
     Forall (fun m => Email m = Email (mwd_Member r)) (EmailDuplicates r) /\
     Forall (fun m => Name m = Name (mwd_Member r) /\
                      Email m <> Email (mwd_Member r)) (NameDuplicates r) /\
     (forall m, m ∈ NameDuplicates r ->
                m ∉ mwd_Member r :: EmailDuplicates r) /\
     (forall m, m ∈ members ->
        Name m = Name (mwd_Member r) \/ Email m = Email (mwd_Member r) ->
        m ∈ mwd_Member r :: EmailDuplicates r \/ m ∈ NameDuplicates r)) /\
  (forall r1 r2, r1 ∈ report -> r2 ∈ report ->
     (mwd_Member r2 ∈ NameDuplicates r1 <->
      mwd_Member r1 ∈ NameDuplicates r2)).
Proof.
  intros Hb.
  assert (forall r, r ∈ report ->
            mwd_Member r ∈ members /\
            (forall m, m ∈ mwd_Member r :: EmailDuplicates r <->
                       m ∈ members /\ Email m = Email (mwd_Member r)) /\
            (forall m, m ∈ NameDuplicates r <->
                       m ∈ members /\ Name m = Name (mwd_Member r) /\
                       Email m <> Email (mwd_Member r))) as Hentry.
  { intros r Hr. eapply reportEntry_rep_member.
    by apply (BuildReport_entries _ _ _ _ Hb). }
  split.
  - intros r Hr. destruct (Hentry r Hr) as (Hrep & Hsame & Hnames).
    split; [| split; [| split]].
    + apply Forall_forall. intros m Hm. apply Hsame. by right.
    + apply Forall_forall. intros m Hm. by apply Hnames in Hm as (_ & ? & ?).
    + intros m Hm Hm'. apply Hnames in Hm as (_ & _ & Hne).
      by apply Hsame in Hm' as [_ He].
    + intros m Hm Hor.
      destruct (decide (Email m = Email (mwd_Member r))) as [He | He].
      * left. by apply Hsame.
      * right. apply Hnames. destruct Hor; [done | done].
  - intros r1 r2 Hr1 Hr2.
    destruct (Hentry r1 Hr1) as (Hrep1 & _ & Hnames1).
    destruct (Hentry r2 Hr2) as (Hrep2 & _ & Hnames2).
    rewrite Hnames1, Hnames2. split; intros (_ & Hn & He); by repeat split.
Qed.

Lemma X14_duplicate_lists_of_entries_witness :
  (mwd_Member Fixture.entryB ∈ NameDuplicates Fixture.entryA <->
   mwd_Member Fixture.entryA ∈ NameDuplicates Fixture.entryB) /\
  Forall (fun m => Email m = "a@x.com") (EmailDuplicates Fixture.entryA).
Proof.
  destruct (X14_duplicate_lists_of_entries Fixture.llamas ""
              [Fixture.entryA; Fixture.entryA; Fixture.entryB] eq_refl)
    as [Hlists Hmutual].
  split.
  - apply Hmutual.
    + apply list_elem_of_In. left. reflexivity.
    + apply list_elem_of_In. right. right. left. reflexivity.
  - apply (Hlists Fixture.entryA). apply list_elem_of_In. left. reflexivity.
Defined.

(** ** The cache on a file system in memory *)

Section CacheFacts.

Variable R : Type.
Variable ToLower : string -> string.
Variable Marshal : list OrgMember -> result string.
Variable Unmarshal : string -> result (list OrgMember).

Local Abbreviation api_t :=
  (Client -> string -> R -> result (list OrgMember) * R).

Local Abbreviation pathOf c orgSlug :=
  (cacheFileOf MemFS.Join c orgSlug).

Lemma cached_hit (api : api_t) (c : cli) (client : Client)
    (orgSlug : string) (fs : gmap string string) (r : R) (b : string) :
  fs !! pathOf c orgSlug = Some b ->
  MemFS.cached api Marshal Unmarshal c client orgSlug (fs, r) =
  match Unmarshal b with
  | inl err => (inl err, (fs, r))
  | inr members => (inr members, (fs, r))
  end.
Proof.
  intros Hb. unfold MemFS.cached, cachedGetOrgMembers, MemFS.Stat,
    MemFS.ReadFile. simpl. by rewrite Hb.
Qed.

Lemma cached_miss (api : api_t) (c : cli) (client : Client)
    (orgSlug : string) (fs : gmap string string) (r : R) :
  fs !! pathOf c orgSlug = None ->
  MemFS.cached api Marshal Unmarshal c client orgSlug (fs, r) =
  match api client orgSlug r with
  | (inl err, r') => (inl err, (fs, r'))
  | (inr members, r') =>
      match Marshal members with
      | inl err => (inl err, (fs, r'))
      | inr b => (inr members, (<[pathOf c orgSlug := b]> fs, r'))
      end
  end.
Proof.
  intros Hb. unfold MemFS.cached, cachedGetOrgMembers, MemFS.Stat,
    MemFS.remote, MemFS.WriteFile. simpl. rewrite Hb.
  destruct (api client orgSlug r) as [[err | members] r']; [done |].
  by destruct (Marshal members).
Qed.

(** A cached fetch only ever adds a file. *)
Lemma cached_grows (api : api_t) (c : cli) (client : Client)
    (orgSlug : string) (fs fs' : gmap string string) (r r' : R)
    (res : result (list OrgMember)) :
  MemFS.cached api Marshal Unmarshal c client orgSlug (fs, r) =
    (res, (fs', r')) ->
  fs ⊆ fs'.
Proof.
  destruct (fs !! pathOf c orgSlug) as [b|] eqn:Hb.
  - rewrite (cached_hit _ _ _ _ _ _ _ Hb).
    destruct (Unmarshal b); by intros [= _ <- _].
  - rewrite (cached_miss _ _ _ _ _ _ Hb).
    destruct (api client orgSlug r) as [[err | members] r1];
      [by intros [= _ <- _] |].
    destruct (Marshal members); intros [= _ <- _]; [done |].
    by apply insert_subseteq.
Qed.

Lemma cached_ok (api : api_t) (c : cli) (client : Client)
    (orgSlug : string) (fs fs' : gmap string string) (r r' : R)
    (members : list OrgMember) :
  (forall ms b, Marshal ms = inr b -> Unmarshal b = inr ms) ->
  MemFS.cached api Marshal Unmarshal c client orgSlug (fs, r) =
    (inr members, (fs', r')) ->
  exists b, fs' !! pathOf c orgSlug = Some b /\ Unmarshal b = inr members.
Proof.
  intros Hcodec.
  destruct (fs !! pathOf c orgSlug) as [b|] eqn:Hb.
  - rewrite (cached_hit _ _ _ _ _ _ _ Hb).
    destruct (Unmarshal b) as [err | ms] eqn:Hu; [done |].
    intros [= <- <- _]. eauto.
  - rewrite (cached_miss _ _ _ _ _ _ Hb).
    destruct (api client orgSlug r) as [[err | ms] r1]; [done |].
    destruct (Marshal ms) as [err | b] eqn:Hm; [done |].
    intros [= <- <- _]. exists b. split; [apply lookup_insert_eq | eauto].
Qed.

Local Abbreviation cachedLoop api c client :=
  (getMembersLoop (MemFS.world R) ToLower
     (MemFS.cached api Marshal Unmarshal c client)).

Lemma cachedLoop_grows (api : api_t) (c : cli) (client : Client)
    (orgSlugs : list string) (acc : list Member)
    (fs fs' : gmap string string) (r r' : R) (res : result (list Member)) :
  cachedLoop api c client orgSlugs acc (fs, r) = (res, (fs', r')) ->
  fs ⊆ fs'.
Proof.
  revert acc fs r. induction orgSlugs as [|s orgSlugs IH]; intros acc fs r;
    simpl.
  - by intros [= _ <- _].
  - destruct (MemFS.cached api Marshal Unmarshal c client s (fs, r))
      as [[err | members] [fs1 r1]] eqn:Hcall.
    + intros [= _ <- _]. by eapply cached_grows.
    + apply cached_grows in Hcall.
      destruct (normalizeAll ToLower members s acc) as [err | acc1].
      * by intros [= _ <- _].
      * intros Hloop. apply IH in Hloop. by etrans.
Qed.

Lemma cachedLoop_replay (api : api_t) (c : cli) (client : Client) :
  (forall ms b, Marshal ms = inr b -> Unmarshal b = inr ms) ->
  forall (orgSlugs : list string) (acc members : list Member)
         (fs fs' : gmap string string) (r r' : R),
    cachedLoop api c client orgSlugs acc (fs, r) = (inr members, (fs', r')) ->
    (forall s, s ∈ orgSlugs ->
       exists b ms, fs' !! pathOf c s = Some b /\ Unmarshal b = inr ms) /\
    (forall (api' : api_t) (fs2 : gmap string string) (r2 : R),
       fs' ⊆ fs2 ->
       cachedLoop api' c client orgSlugs acc (fs2, r2) =
         (inr members, (fs2, r2))).
Proof.
  intros Hcodec orgSlugs.
  induction orgSlugs as [|s orgSlugs IH]; intros acc members fs fs' r r'; simpl.
  - intros [= <- <- _]. split; [| done].
    intros s Hs. by apply elem_of_nil in Hs.
  - destruct (MemFS.cached api Marshal Unmarshal c client s (fs, r))
      as [[err | raw] [fs1 r1]] eqn:Hcall; [done |].
    destruct (cached_ok _ _ _ _ _ _ _ _ _ Hcodec Hcall) as (b & Hb & Hu).
    destruct (normalizeAll ToLower raw s acc) as [err | acc1] eqn:Hnorm;
      [done |].
    intros Hloop. pose proof (cachedLoop_grows _ _ _ _ _ _ _ _ _ _ Hloop) as Hsub.
    destruct (IH _ _ _ _ _ _ Hloop) as [Hfiles Hreplay]. split.
    + intros s' Hs'. apply elem_of_cons in Hs' as [-> | Hs']; [| eauto].
      exists b, raw. split; [| done]. by eapply lookup_weaken.
    + intros api' fs2 r2 Hsub2.
      rewrite (cached_hit api' c client s fs2 r2 b), Hu, Hnorm.
      * by apply Hreplay.
      * eapply lookup_weaken; [| exact Hsub2]. by eapply lookup_weaken.
Qed.


(** X16: with the cache on, a run that succeeded can be repeated from the
    files it left: the second run returns the same members, does not depend
    on the API (any API, in any state, gives the same result and is left in
    that state) and writes nothing. *)
Theorem X16_cached_run_repeats (api : api_t) (c : cli)
    (fs fs' : gmap string string) (r r' : R) (members : list Member) :
  (forall ms b, Marshal ms = inr b -> Unmarshal b = inr ms) ->
  c_Cache c = true ->
  MemFS.getMembers ToLower api Marshal Unmarshal c (fs, r) =
    (inr members, (fs', r')) ->
  forall (api' : api_t) (r2 : R),
    MemFS.getMembers ToLower api' Marshal Unmarshal c (fs', r2) =
      (inr members, (fs', r2)).
Proof.
  intros Hcodec Hcache. unfold MemFS.getMembers, cli_getMembers, NewClient.
  rewrite Hcache. unfold MemFS.MkdirAll. intros Hloop api' r2.
  destruct (cachedLoop_replay _ _ _ Hcodec _ _ _ _ _ _ _ Hloop) as [_ Hreplay].
  by apply Hreplay.
Qed.

End CacheFacts.

Lemma tableCodec_round_trip (ms : list OrgMember) (b : string) :
  CacheScenario.tableMarshal ms = inr b ->
  CacheScenario.tableUnmarshal b = inr ms.
Proof.
  unfold CacheScenario.tableMarshal.
  destruct (decide (ms = [Fixture.rawSso; Fixture.rawPlain])) as [-> | Hne].
  - intros H. injection H as <-. reflexivity.
  - intros H. discriminate H.
Defined.

Lemma cachedRun_first :
  MemFS.getMembers Fixture.ToLowerASCII CacheScenario.apiUp
    CacheScenario.tableMarshal CacheScenario.tableUnmarshal
    (CacheScenario.cachedFlags ["llama-org"; "llama-org"])
    (CacheScenario.notes, 0%nat) =
  (inr [Fixture.normSso; Fixture.normPlain;
        Fixture.normSso; Fixture.normPlain],
   (CacheScenario.afterRun, 1%nat)).
Proof. vm_compute. reflexivity. Defined.


Lemma X16_cached_run_repeats_witness :
  MemFS.getMembers Fixture.ToLowerASCII CacheScenario.apiDown
    CacheScenario.tableMarshal CacheScenario.tableUnmarshal
    (CacheScenario.cachedFlags ["llama-org"; "llama-org"])
    (CacheScenario.afterRun, 7%nat) =
  (inr [Fixture.normSso; Fixture.normPlain;
        Fixture.normSso; Fixture.normPlain],
   (CacheScenario.afterRun, 7%nat)).
Proof.
  apply (X16_cached_run_repeats nat Fixture.ToLowerASCII
           CacheScenario.tableMarshal CacheScenario.tableUnmarshal
           CacheScenario.apiUp
           (CacheScenario.cachedFlags ["llama-org"; "llama-org"])
           CacheScenario.notes CacheScenario.afterRun 0%nat 1%nat
           _ tableCodec_round_trip eq_refl cachedRun_first).
Defined.

(** ** The cache on any file system *)

Section CacheFailures.

Variable World : Type.
Variable ToLower : string -> string.
Variable clientGetOrgMembers :
  Client -> string -> World -> result (list OrgMember) * World.
Variable MkdirAll : string -> World -> option error * World.
Variable Stat : string -> World -> option error.
Variable ReadFile : string -> World -> result string.
Variable WriteFile : string -> string -> World -> option error * World.
Variable Marshal : list OrgMember -> result string.
Variable Unmarshal : string -> result (list OrgMember).
Variable filepath_Join : string -> string -> string.

Local Abbreviation run :=
  (cli_getMembers World ToLower clientGetOrgMembers MkdirAll Stat ReadFile
     WriteFile Marshal Unmarshal filepath_Join).

(** X17: how the cache makes [getMembers] fail.  When the cache directory
    cannot be made nothing is fetched.  A cache file that is there but
    cannot be read or decoded is an error of the whole call: the API is not
    asked instead.  When the file is not there and the API answers, a failure
    to encode or to write the file is an error too, and the members just
    fetched are not returned.  With the cache off none of the file
    operations takes part. *)
Theorem X17_cache_failure_modes (c : cli) (w : World) :
  (c_Cache c = true ->
   forall err w1,
     MkdirAll (c_CacheDir c) w = (Some err, w1) -> run c w = (inl err, w1)) /\
  (c_Cache c = true ->
   forall w1 orgSlug rest,
     MkdirAll (c_CacheDir c) w = (None, w1) ->
     c_OrgSlugs c = orgSlug :: rest ->
     let cacheFile := filepath_Join (c_CacheDir c) (orgSlug ++ ".json") in
     (Stat cacheFile w1 = None ->
      (forall err, ReadFile cacheFile w1 = inl err ->
                   run c w = (inl err, w1)) /\
      (forall b err, ReadFile cacheFile w1 = inr b ->
                     Unmarshal b = inl err ->
                     run c w = (inl err, w1))) /\
     (forall miss members w2,
        Stat cacheFile w1 = Some miss ->
        clientGetOrgMembers
          {| token := c_APIToken c; endpoint := graphQLEndpoint;
             header := [("Content-Type", "application/json");
                        ("Authorization", "Bearer " ++ c_APIToken c)] |}
          orgSlug w1 = (inr members, w2) ->
        (forall err, Marshal members = inl err -> run c w = (inl err, w2)) /\
        (forall b err w3,
            Marshal members = inr b ->
            WriteFile cacheFile b w2 = (Some err, w3) ->
            run c w = (inl err, w3)))) /\
  (c_Cache c = false ->
   run c w =
   getMembers World ToLower
     (clientGetOrgMembers
        {| token := c_APIToken c; endpoint := graphQLEndpoint;
           header := [("Content-Type", "application/json");
                      ("Authorization", "Bearer " ++ c_APIToken c)] |})
     c w).
Proof.
  split; [| split].
  - intros Hc err w1 Hm. unfold cli_getMembers, NewClient. by rewrite Hc, Hm.
  - intros Hc w1 orgSlug rest Hm Hs cacheFile.
    unfold cli_getMembers, NewClient. rewrite Hc, Hm, Hs. simpl.
    unfold cachedGetOrgMembers, cacheFileOf. fold cacheFile. split.
    + intros ->. split.
      * intros err ->. done.
      * intros b err -> ->. done.
    + intros miss members w2 -> ->. split.
      * intros err ->. done.
      * intros b err w3 -> ->. done.
  - intros Hc. unfold cli_getMembers, NewClient. by rewrite Hc.
Qed.

End CacheFailures.

Lemma X17_cache_failure_modes_witness :
  MemFS.getMembers Fixture.ToLowerASCII CacheScenario.apiUp
    CacheScenario.tableMarshal CacheScenario.tableUnmarshal
    (CacheScenario.cachedFlags ["llama-org"])
    (CacheScenario.corrupt, 0%nat) =
  (inl (ErrOpaque "invalid character looking for beginning of value"),
   (CacheScenario.corrupt, 0%nat)).
Proof.
  destruct (X17_cache_failure_modes (MemFS.world nat) Fixture.ToLowerASCII
              (MemFS.remote CacheScenario.apiUp) MemFS.MkdirAll MemFS.Stat
              MemFS.ReadFile MemFS.WriteFile CacheScenario.tableMarshal
              CacheScenario.tableUnmarshal MemFS.Join
              (CacheScenario.cachedFlags ["llama-org"])
              (CacheScenario.corrupt, 0%nat)) as (_ & Hfile & _).
  destruct (Hfile eq_refl (CacheScenario.corrupt, 0%nat) "llama-org" []
              eq_refl eq_refl) as [Hhit _].
  destruct (Hhit eq_refl) as [_ Hdecode].
  apply (Hdecode "<html>"); reflexivity.
Defined.

(** ** The requests of a fetch *)

Section RequestFacts.

Variable World : Type.
Variable httpDo : Request -> World -> result HTTPResponse * World.
Variable unmarshalErrors : string -> list string.
Variable decodePage : string -> result membersPage.

Local Abbreviation recPage :=
  (getOrgMembersPage (list Request * World) (recording httpDo)
     unmarshalErrors decodePage).

Local Abbreviation recLoop :=
  (GetOrgMembers_loop (list Request * World) (recording httpDo)
     unmarshalErrors decodePage).

Lemma recPage_request (c : Client) (orgSlug after : string)
    (log log' : list Request) (w w' : World)
    (res : result (list OrgMember * string)) :
  recPage c orgSlug after (log, w) = (res, (log', w')) ->
  log' = (log ++ [pageRequestOf c orgSlug after])%list.
Proof.
  unfold getOrgMembersPage, Do, recording. fold (pageRequestOf c orgSlug after).
  simpl. destruct (httpDo _ w) as [[err | resp] w1]; simpl.
  - by intros [= _ <- _].
  - destruct (checkResponseForErrors unmarshalErrors resp) as [resp' [err|]].
    + by intros [= _ <- _].
    + destruct (DecodeInto decodePage resp'); by intros [= _ <- _].
Qed.

(** The cursors of the requests a loop sends, and the requests. *)
Lemma recLoop_requests (fuel : nat) (c : Client) (orgSlug after : string)
    (acc : list OrgMember) (log log' : list Request) (w w' : World)
    (res : result (list OrgMember)) :
  recLoop fuel c orgSlug after acc (log, w) = Some (res, (log', w')) ->
  exists cursors,
    log' = (log ++ (pageRequestOf c orgSlug <$> after :: cursors))%list /\
    (S (length cursors) <= fuel)%nat /\
    Forall (fun cursor => cursor <> "") cursors.
Proof.
  revert after acc log w. induction fuel as [|fuel IH];
    intros after acc log w; [done |].
  cbn [GetOrgMembers_loop].
  destruct (recPage c orgSlug after (log, w)) as [[err | [ms next]] [log1 w1]]
    eqn:Hpage; apply recPage_request in Hpage as ->.
  - intros [= _ <- _]. exists []. split; [done |]. split; [simpl; lia | done].
  - destruct (String.eqb_spec next "") as [-> | Hne].
    + intros [= _ <- _]. exists []. split; [done |].
      split; [simpl; lia | done].
    + intros Hloop. destruct (IH _ _ _ _ Hloop) as (cursors & -> & Hlen & Hall).
      exists (next :: cursors). split; [| split].
      * by rewrite <- app_assoc.
      * simpl. lia.
      * by constructor.
Qed.

(** X18: every request of a fetch carries the headers of the client, among
    them the bearer token the client was made with, the one members query,
    and the slug of the organization; the first one has the empty cursor
    and every later one a cursor that is not empty; a fetch that returns has
    sent at least one request. *)
Theorem X18_requests_of_a_fetch (fuel : nat) (apiToken orgSlug : string)
    (c : Client) (log log' : list Request) (w w' : World)
    (res : result (list OrgMember)) :
  NewClient apiToken = inr c ->
  GetOrgMembers (list Request * World) (recording httpDo) unmarshalErrors
    decodePage fuel c orgSlug (log, w) = Some (res, (log', w')) ->
  exists first later,
    log' = (log ++ first :: later)%list /\
    req_Variables first = [("orgSlug", orgSlug); ("after", "")] /\
    Forall (fun req =>
      exists cursor,
        cursor <> "" /\
        req_Variables req = [("orgSlug", orgSlug); ("after", cursor)]) later /\
    Forall (fun req =>
      req_Header req = [("Content-Type", "application/json");
                        ("Authorization", "Bearer " ++ apiToken)] /\
      req_Query req = TrimSpace orgMembersQuery) (first :: later).
Proof.
  intros [= <-] Hfetch. unfold GetOrgMembers in Hfetch.
  destruct (recLoop_requests _ _ _ _ _ _ _ _ _ _ Hfetch)
    as (cursors & -> & _ & Hall).
  eexists _, _. split; [by rewrite fmap_cons |]. split; [done |]. split.
  - apply Forall_fmap. eapply Forall_impl; [exact Hall |].
    intros cursor Hne. simpl. by exists cursor.
  - rewrite <- fmap_cons. apply Forall_fmap, Forall_forall. by intros cursor _.
Qed.

End RequestFacts.

Lemma X18_requests_of_a_fetch_witness :
  exists first later,
    [Fixture.pageRequest "llama-org" 0; Fixture.pageRequest "llama-org" 2;
     Fixture.pageRequest "llama-org" 4] = ([] ++ first :: later)%list /\
    req_Variables first = [("orgSlug", "llama-org"); ("after", "")] /\
    Forall (fun req =>
      exists cursor,
        cursor <> "" /\
        req_Variables req = [("orgSlug", "llama-org"); ("after", cursor)])
      later /\
    Forall (fun req =>
      req_Header req = [("Content-Type", "application/json");
                        ("Authorization", "Bearer " ++ "token")] /\
      req_Query req = TrimSpace orgMembersQuery) (first :: later).
Proof.
  apply (X18_requests_of_a_fetch (list Request) Fixture.pagedDo
           Fixture.noErrors
           (Fixture.pagedDecode 2 (Fixture.edgeOf <$> seq 0 5))
           10 "token" "llama-org" Fixture.someClient []
           [Fixture.pageRequest "llama-org" 0; Fixture.pageRequest "llama-org" 2;
            Fixture.pageRequest "llama-org" 4]
           []
           [Fixture.pageRequest "llama-org" 0; Fixture.pageRequest "llama-org" 2;
            Fixture.pageRequest "llama-org" 4]
           (inr (memberOfEdge <$> (Fixture.edgeOf <$> seq 0 5)))).
  - reflexivity.
  - vm_compute. reflexivity.
Defined.

(** ** The order of the collapsed report *)

Lemma Collapse_sublist (report : list MemberWithDuplicates)
    (dedupeEmail dedupeName : bool) :
  Collapse report dedupeEmail dedupeName `sublist_of` report.
Proof.
  unfold Collapse. destruct (dedupeEmail || dedupeName)%bool; [| done].
  apply collapseLoop_sublist.
Qed.

Lemma StronglySorted_sublist {A : Type} (R : relation A) (l k : list A) :
  k `sublist_of` l -> StronglySorted R l -> StronglySorted R k.
Proof.
  induction 1 as [|x k l Hsub IH|x k l Hsub IH]; intros Hs.
  - constructor.
  - apply StronglySorted_inv in Hs as [Hs Hall]. constructor; [by apply IH |].
    apply Forall_forall. intros y Hy.
    eapply (proj1 (Forall_forall _ _) Hall), elem_of_sublist; eauto.
  - apply StronglySorted_inv in Hs as [Hs _]. by apply IH.
Qed.

Lemma BuildReport_emails_sorted (members : list Member) (filterEmail : string)
    (report : list MemberWithDuplicates) :
  BuildReport members filterEmail = Some report ->
  Sorted string_le ((fun r => Email (mwd_Member r)) <$> report).
Proof.
  intros Hb. rewrite (BuildReport_emails _ _ _ Hb).
  destruct (decide (filterEmail = "")) as [-> | Hne].
  - rewrite keptEmails_no_filter. apply sort_Strings_Sorted.
  - eapply Sorted_constant. by apply keptEmails_filter.
Qed.

(** X19: the collapse keeps the report in ascending order of email,
    whatever the dedupe keys: of two entries of the collapsed report, the
    earlier one has the smaller or the same email. *)
Theorem X19_collapsed_report_sorted
    (members : list Member) (filterEmail : string)
    (report : list MemberWithDuplicates) (dedupeEmail dedupeName : bool) :
  BuildReport members filterEmail = Some report ->
  Sorted string_le
    ((fun r => Email (mwd_Member r)) <$>
       Collapse report dedupeEmail dedupeName) /\
  (forall i j ri rj,
      (i <= j)%nat ->
      Collapse report dedupeEmail dedupeName !! i = Some ri ->
      Collapse report dedupeEmail dedupeName !! j = Some rj ->
      string_le (Email (mwd_Member ri)) (Email (mwd_Member rj))).
Proof.
  intros Hb.
  assert (StronglySorted string_le
            ((fun r => Email (mwd_Member r)) <$>
               Collapse report dedupeEmail dedupeName)) as Hss.
  { eapply StronglySorted_sublist.
    - apply fmap_sublist, Collapse_sublist.
    - apply (Sorted_StronglySorted string_le).
      by eapply BuildReport_emails_sorted. }
  split; [by apply StronglySorted_Sorted |].
  intros i j ri rj Hij Hi Hj.
  destruct (decide (i = j)) as [-> | Hne].
  - assert (ri = rj) as -> by congruence. apply string_le_refl.
  - revert Hss Hi Hj. generalize (Collapse report dedupeEmail dedupeName).
    intros out Hss. revert i j Hij Hne.
    induction out as [|r out IH]; intros i j Hij Hne; [done |].
    csimpl in Hss. apply StronglySorted_inv in Hss as [Hss Hall].
    destruct i as [|i], j as [|j]; try lia; simpl.
    + intros [= <-] Hj.
      apply (proj1 (Forall_forall _ _) Hall).
      apply list_elem_of_fmap. exists rj. split; [done |].
      by eapply list_elem_of_lookup_2.
    + apply IH; [done | lia | lia].
Qed.

Lemma X19_collapsed_report_sorted_witness :
  Sorted string_le
    ((fun r => Email (mwd_Member r)) <$>
       Collapse [Fixture.entryA; Fixture.entryA; Fixture.entryB] true false).
Proof.
  apply (X19_collapsed_report_sorted Fixture.llamas ""
           [Fixture.entryA; Fixture.entryA; Fixture.entryB] true false).
  reflexivity.
Defined.

(** ** Counting distinct emails *)

Lemma Collapse_by_email_length (members : list Member)
    (report : list MemberWithDuplicates) :
  BuildReport members "" = Some report ->
  (forall m1 m2, m1 ∈ members -> m2 ∈ members ->
                 ID m1 = ID m2 -> Email m1 = Email m2) ->
  length (Collapse report true false) =
  length (remove_dups (memberEmails members)).
Proof.
  intros Hb Hid.
  rewrite <- (length_fmap (fun r => Email (mwd_Member r))).
  apply Permutation_length, NoDup_Permutation; [| apply NoDup_remove_dups |].
  - apply NoDup_alt. intros i j email. rewrite !list_lookup_fmap. intros Hi Hj.
    destruct (Collapse report true false !! i) as [ri|] eqn:Hri; [| done].
    destruct (Collapse report true false !! j) as [rj|] eqn:Hrj; [| done].
    simpl in Hi, Hj.
    pose proof (Collapse_entries _ _ _ _ _ _ _ Hb Hri) as Hei.
    pose proof (Collapse_entries _ _ _ _ _ _ _ Hb Hrj) as Hej.
    apply (Collapse_ids_inj report true false i j ri rj); [done | done | done |].
    assert (ri = rj) as -> by congruence. done.
  - intros email. rewrite elem_of_remove_dups. unfold Collapse. simpl.
    rewrite (collapse_by_email_emails members report Hid) with (covered := []).
    + rewrite (BuildReport_emails _ _ _ Hb), keptEmails_no_filter,
        sort_Strings_Permutation, elem_of_nil. tauto.
    + apply Forall_forall. intros r Hr. by apply (BuildReport_entries _ _ _ _ Hb).
    + intros id. rewrite lookup_empty. split; [by intros [? ?] |].
      intros (m & _ & _ & H). by apply elem_of_nil in H.
Qed.

(** X20: when the members that share an id also share the email, a run
    with the email key as the only dedupe key, no email filter and the count
    output prints the number of distinct emails among the members. *)
Theorem X20_count_of_distinct_emails
    (World : Type) (ToLower : string -> string) (Format : Time -> string)
    (getOrgMembers : string -> World -> result (list OrgMember) * World)
    (osCreate : string -> World -> option error * World)
    (c : cli) (w w' : World) (members : list Member) :
  getMembers World ToLower getOrgMembers c w = (inr members, w') ->
  (forall m1 m2, m1 ∈ members -> m2 ∈ members ->
                 ID m1 = ID m2 -> Email m1 = Email m2) ->
  c_Output c = "count" -> c_Email c = "" ->
  "email" ∈ c_Dedupe c -> "name" ∉ c_Dedupe c ->
  Run World ToLower Format getOrgMembers osCreate c w =
    Some (inr (RenderCount (length (remove_dups (memberEmails members)))), w').
Proof.
  intros Hfetch Hid Hout Hfilter He Hn. unfold Run. rewrite Hfetch, Hfilter.
  destruct (BuildReport_spec members "") as (report & Hb & _).
  rewrite Hb, dedupeFlags_spec. simpl.
  rewrite bool_decide_eq_true_2, bool_decide_eq_false_2 by done.
  rewrite Hout. simpl.
  by rewrite (Collapse_by_email_length _ _ Hb Hid).
Qed.

Lemma X20_count_of_distinct_emails_witness :
  Run (list string) Fixture.ToLowerASCII Fixture.FormatStub Fixture.twoOrgs
      Fixture.createOk
      (Fixture.flags ["llama-org"; "llama-org"] ["email"] "count" "") [] =
    Some (inr (RenderCount 2), ["llama-org"; "llama-org"]).
Proof.
  apply (X20_count_of_distinct_emails (list string) Fixture.ToLowerASCII
           Fixture.FormatStub Fixture.twoOrgs Fixture.createOk
           (Fixture.flags ["llama-org"; "llama-org"] ["email"] "count" "")
           [] ["llama-org"; "llama-org"]
           [Fixture.normSso; Fixture.normPlain;
            Fixture.normSso; Fixture.normPlain]).
  - reflexivity.
  - intros m1 m2 H1 H2.
    apply list_elem_of_In in H1, H2. simpl in H1, H2.
    destruct H1 as [<- | [<- | [<- | [<- | []]]]];
      destruct H2 as [<- | [<- | [<- | [<- | []]]]];
      intros H; try reflexivity; discriminate H.
  - reflexivity.
  - reflexivity.
  - apply list_elem_of_In. left. reflexivity.
  - intros H. apply list_elem_of_In in H. simpl in H.
    destruct H as [H | []]. discriminate H.
Defined.
